(** * cell-design: the NPR variability notebook and the C-rate sweep

    A shallow embedding of the two computations of the repository:

    - the Monte Carlo notebook on the negative-to-positive ratio (NPR):
      sampling of electrode loadings, areal capacities, the ratio
      [npr_actual] and the percentage [percent_more] of cells with NPR < 1;
    - [sweep_c_rate] of [power_vs_energy.ipynb]: one solver run per C-rate,
      the energy integral [np.cumsum(power * np.diff(np.append(0, time))) / 3600]
      and the aggregate dictionary of the results.

    The numpy code is written once, over an interface [Arith] of the
    arithmetic it uses, and read at two instances: [xnum], exact rational
    arithmetic with the IEEE special values, where the algebraic laws are
    proved, and [float], the binary64 numbers the notebooks run on, where
    concrete runs are evaluated. *)

From stdpp Require Import gmap strings list fin_maps sorting.
From Stdlib Require Import QArith Lqa PrimFloat.

Open Scope Z_scope.

(** ** The arithmetic of the notebooks *)

(** What the code asks of its numbers: conversion of a Python [int], the
    four operations and the comparison [<]. *)
Class Arith (num : Type) := {
  of_Z : Z → num;
  add : num → num → num;
  sub : num → num → num;
  mul : num → num → num;
  div : num → num → num;
  ltb : num → num → bool;
}.

(** *** Exact numbers with IEEE special values

    [Fin q] is the real number [q]; [PInf], [NInf] and [NaN] are what IEEE
    arithmetic returns for a zero divisor and for the invalid operations.
    There is no rounding, no overflow and one zero. *)
Inductive xnum : Type :=
  | Fin (q : Q)
  | PInf
  | NInf
  | NaN.

Definition sgn_inf (c : comparison) : xnum :=
  match c with Gt => PInf | Lt => NInf | Eq => NaN end.

Definition xopp (x : xnum) : xnum :=
  match x with
  | Fin q => Fin (- q)
  | PInf => NInf
  | NInf => PInf
  | NaN => NaN
  end.

Definition xadd (x y : xnum) : xnum :=
  match x, y with
  | NaN, _ | _, NaN => NaN
  | Fin a, Fin b => Fin (a + b)
  | PInf, NInf | NInf, PInf => NaN
  | PInf, _ | _, PInf => PInf
  | NInf, _ | _, NInf => NInf
  end.

Definition xsub (x y : xnum) : xnum := xadd x (xopp y).

Definition xmul (x y : xnum) : xnum :=
  match x, y with
  | NaN, _ | _, NaN => NaN
  | Fin a, Fin b => Fin (a * b)
  | Fin a, PInf | PInf, Fin a => sgn_inf (a ?= 0)%Q
  | Fin a, NInf | NInf, Fin a => sgn_inf (0 ?= a)%Q
  | PInf, PInf | NInf, NInf => PInf
  | PInf, NInf | NInf, PInf => NInf
  end.

Definition xdiv (x y : xnum) : xnum :=
  match x, y with
  | NaN, _ | _, NaN => NaN
  | Fin a, Fin b =>
      if Qeq_bool b 0 then sgn_inf (a ?= 0)%Q else Fin (a / b)
  | Fin _, (PInf | NInf) => Fin 0
  | PInf, Fin b => match (b ?= 0)%Q with Lt => NInf | _ => PInf end
  | NInf, Fin b => match (b ?= 0)%Q with Lt => PInf | _ => NInf end
  | (PInf | NInf), (PInf | NInf) => NaN
  end.

Definition xltb (x y : xnum) : bool :=
  match x, y with
  | NaN, _ | _, NaN => false
  | Fin a, Fin b => match (a ?= b)%Q with Lt => true | _ => false end
  | NInf, NInf => false
  | NInf, _ => true
  | _, NInf => false
  | PInf, _ => false
  | Fin _, PInf => true
  end.

#[export] Instance xnum_arith : Arith xnum := {
  of_Z z := Fin (inject_Z z);
  add := xadd;
  sub := xsub;
  mul := xmul;
  div := xdiv;
  ltb := xltb;
}.

(** Equality of exact numbers: the same special value, or equal rationals. *)
Definition xeq (x y : xnum) : Prop :=
  match x, y with
  | Fin a, Fin b => (a == b)%Q
  | PInf, PInf | NInf, NInf | NaN, NaN => True
  | _, _ => False
  end.

(** The order [x < y] as a relation: no [NaN] on either side. *)
Definition xlt (x y : xnum) : Prop :=
  match x, y with
  | Fin a, Fin b => (a < b)%Q
  | NInf, (Fin _ | PInf) => True
  | Fin _, PInf => True
  | _, _ => False
  end.

Definition xle (x y : xnum) : Prop := xlt x y ∨ xeq x y.

(** A finite number that is not negative. *)
Definition fin_nonneg (x : xnum) : Prop :=
  match x with
  | Fin q => (0 <= q)%Q
  | _ => False
  end.

(** *** binary64

    The numbers of numpy's [float64] arrays, with the kernel's IEEE 754
    operations. A Python [int] is converted digit by digit, which is exact
    below 2^53. *)
Fixpoint float_of_pos (p : positive) : float :=
  match p with
  | xH => 1%float
  | xO p => PrimFloat.mul 2%float (float_of_pos p)
  | xI p => PrimFloat.add (PrimFloat.mul 2%float (float_of_pos p)) 1%float
  end.

Definition float_of_Z (z : Z) : float :=
  match z with
  | Z0 => 0%float
  | Zpos p => float_of_pos p
  | Zneg p => PrimFloat.opp (float_of_pos p)
  end.

#[export] Instance float_arith : Arith float := {
  of_Z := float_of_Z;
  add := PrimFloat.add;
  sub := PrimFloat.sub;
  mul := PrimFloat.mul;
  div := PrimFloat.div;
  ltb := PrimFloat.ltb;
}.

(** ** Python and numpy on one-dimensional arrays *)

Inductive exn (E : Type) : Type :=
  | ValueError          (* operands could not be broadcast together *)
  | IndexError          (* index out of bounds *)
  | SolverError (e : E) (* whatever the solver raised *).
Arguments ValueError {E}.
Arguments IndexError {E}.
Arguments SolverError {E} e.

(** A [RuntimeWarning] of numpy: the operation still returns a value. *)
Inductive warning : Type :=
  | InvalidValueInDivide   (* 0 / 0 *)
  | DivideByZero           (* x / 0, x nonzero *).

Section Numpy.
Context {num : Type} `{Arith num}.

(** [a op b] on arrays of shapes [(m,)] and [(n,)]: elementwise when
    [m = n], the single element repeated when one length is 1, and a
    [ValueError] otherwise. *)
Definition broadcast (op : num → num → num) (a b : list num)
  : option (list num) :=
  if (length a =? length b)%nat then Some (zip_with op a b)
  else match a, b with
       | [x], _ => Some (op x <$> b)
       | _, [y] => Some ((λ x, op x y) <$> a)
       | _, _ => None
       end.

(** [a op c] for an array and a Python scalar. *)
Definition scalar_op (op : num → num → num) (a : list num) (c : num)
  : list num := (λ x, op x c) <$> a.

(** [np.append(0, a)]. *)
Definition np_append0 (a : list num) : list num := of_Z 0 :: a.

(** [np.diff(a)]: [a[1:] - a[:-1]]. *)
Fixpoint np_diff (a : list num) : list num :=
  match a with
  | x :: (y :: _) as rest => sub y x :: np_diff rest
  | _ => []
  end.

(** [np.cumsum(a)]: the running sums, from the left; the first one is
    [a[0]] itself. *)
Fixpoint cumsum_from (acc : num) (a : list num) : list num :=
  match a with
  | [] => []
  | x :: rest => let acc' := add acc x in acc' :: cumsum_from acc' rest
  end.

Definition np_cumsum (a : list num) : list num :=
  match a with
  | [] => []
  | x :: rest => x :: cumsum_from x rest
  end.

(** [np.sum(a)] on a contiguous array of floating-point numbers is
    numpy's pairwise summation, and the order matters once the additions
    round. Fewer than eight elements are added from the left. Up to 128
    elements are added into eight accumulators [r[0..7]], element [i]
    into [r[i % 8]], as far as the blocks of eight go; the accumulators
    are then combined as
    [((r[0] + r[1]) + (r[2] + r[3])) + ((r[4] + r[5]) + (r[6] + r[7]))]
    and the elements left over are added one by one. A longer array is
    split at [n2 = n / 2 - (n / 2) % 8] and the sums of the two parts are
    added. numpy starts from a zero that leaves the first summand as it
    is, so the sum of an array that is not empty starts from its first
    element. *)
Fixpoint accumulate8 (r a : list num) (blocks : nat)
  : list num * list num :=
  match blocks with
  | O => (r, a)
  | S b => accumulate8 (zip_with add r (take 8 a)) (drop 8 a) b
  end.

Definition reduce8 (r : list num) : num :=
  match r with
  | [r0; r1; r2; r3; r4; r5; r6; r7] =>
      add (add (add r0 r1) (add r2 r3)) (add (add r4 r5) (add r6 r7))
  | _ => of_Z 0
  end.

Definition unrolled_sum (a : list num) : num :=
  let '(r, rest) :=
    accumulate8 (take 8 a) (drop 8 a) (length a / 8 - 1) in
  fold_left add rest (reduce8 r).

(** The recursion halves the array, so [fuel] is never used up when it
    starts at the length of the array. *)
Fixpoint pairwise_sum (fuel : nat) (a : list num) : num :=
  let n := length a in
  if (n <? 8)%nat then
    match a with
    | [] => of_Z 0
    | x :: rest => fold_left add rest x
    end
  else if (n <=? 128)%nat then unrolled_sum a
  else match fuel with
       | O => unrolled_sum a
       | S fuel' =>
           let n2 := (n / 2 - (n / 2) mod 8)%nat in
           add (pairwise_sum fuel' (take n2 a))
               (pairwise_sum fuel' (drop n2 a))
       end.

Definition np_sum (a : list num) : num := pairwise_sum (length a) a.

(** [np.mean(a)]: the sum over the number of elements. *)
Definition np_mean (a : list num) : num :=
  div (np_sum a) (of_Z (Z.of_nat (length a))).

(** [a < c]: an array of booleans. *)
Definition np_less (a : list num) (c : num) : list bool :=
  (λ x, ltb x c) <$> a.

(** [mask.sum()]: the number of [True]. *)
Definition bool_sum (mask : list bool) : Z :=
  fold_left (λ acc (b : bool), if b then acc + 1 else acc) mask 0.

(** [np.min(a)] and [np.max(a)] raise a [ValueError] on an array of size
    zero. The notebook takes them for the axes of the plot only, so the
    model keeps whether they are defined and not their value. *)
Definition reduction_defined (a : list num) : option unit :=
  match a with
  | [] => None
  | _ :: _ => Some ()
  end.

(** [a[-1]]. *)
Definition py_last {A} (a : list A) : option A := last a.

(** [c / n] for an [np.int64] and a Python [int]: true division in
    binary64. A zero divisor is not an exception: numpy returns the IEEE
    value and emits a [RuntimeWarning]. *)
Definition int_true_divide (c n : Z) : num * list warning :=
  (div (of_Z c) (of_Z n),
   if decide (n = 0)
   then [if decide (c = 0) then InvalidValueInDivide else DivideByZero]
   else []).

(** *** The exceedance statistic

    [(npr_actual < 1).sum() / len(npr_actual) * 100], the expression the
    notebook assigns to [percent_more], with the literal [1] as a
    parameter. *)
Definition exceedance (threshold : num) (npr_actual : list num)
  : num * list warning :=
  let '(frac, w) :=
    int_true_divide (bool_sum (np_less npr_actual threshold))
                    (Z.of_nat (length npr_actual)) in
  (mul frac (of_Z 100), w).

End Numpy.

(** A decimal literal [n/d] of the source: Python reads it as the nearest
    binary64, which is the correctly rounded quotient of two integers that
    are themselves exact. *)
Definition dec {num : Type} `{Arith num} (n d : Z) : num :=
  div (of_Z n) (of_Z d).

(** [l[k-1]], with [x0] in front of the first element. *)
Definition before {A : Type} (x0 : A) (l : list A) (k : nat) : A :=
  match k with
  | O => x0
  | S j => default x0 (l !! j)
  end.

(** ** The NPR variability notebook *)

Module NPR.
Section Notebook.
Context {num : Type} `{Arith num}.

(** numpy's global generator: its state, [np.random.seed] and
    [np.random.normal(loc, scale, size)], which returns the samples
    together with the advanced state. *)
Context {G : Type}.
Variable seed : Z → G.
Variable normal : num → num → nat → G → list num * G.

(** The state of the Python kernel: the generator, the variables of the
    notebook under their own names, and the warnings printed so far. The
    cells are run from top to bottom, so no variable is read before the
    cell that assigns it. *)
Record kernel : Type := Kernel {
  rng : G;
  NEG_LOADING_MEAN : num;
  POS_LOADING_MEAN : num;
  NEG_QSP : num;
  POS_QSP : num;
  NEG_LOADING_CV : num;
  POS_LOADING_CV : num;
  neg_loading_std : num;
  pos_loading_std : num;
  N : nat;
  neg_loading : list num;
  pos_loading : list num;
  neg_areal_capacity : list num;
  pos_areal_capacity : list num;
  ANODE_LOADING_INCREASE_FACTOR : num;
  pos_areal_capacity_new : list num;
  npr_actual : list num;
  percent_more : num;
  stderr : list warning;
}.

(** A kernel that has run no cell yet, its generator in the state [g]. *)
Definition boot (g : G) : kernel :=
  Kernel g (of_Z 0) (of_Z 0) (of_Z 0) (of_Z 0) (of_Z 0) (of_Z 0)
         (of_Z 0) (of_Z 0) 0 [] [] [] [] (of_Z 0) [] [] (of_Z 0) [].

(** [np.random.seed(42)] *)
Definition cell_seed (k : kernel) : kernel :=
  Kernel (seed 42)
    (NEG_LOADING_MEAN k) (POS_LOADING_MEAN k) (NEG_QSP k) (POS_QSP k)
    (NEG_LOADING_CV k) (POS_LOADING_CV k)
    (neg_loading_std k) (pos_loading_std k) (N k)
    (neg_loading k) (pos_loading k)
    (neg_areal_capacity k) (pos_areal_capacity k)
    (ANODE_LOADING_INCREASE_FACTOR k) (pos_areal_capacity_new k)
    (npr_actual k) (percent_more k) (stderr k).

(** "Initialize constants" *)
Definition cell_constants (k : kernel) : kernel :=
  let neg_mean := dec 1485 100 in
  let pos_mean := dec 2469 100 in
  let neg_cv := dec 2 100 in
  let pos_cv := dec 3 100 in
  Kernel (rng k)
    neg_mean pos_mean (of_Z 372) (of_Z 224)
    neg_cv pos_cv
    (mul neg_mean neg_cv) (mul pos_mean pos_cv) (N k)
    (neg_loading k) (pos_loading k)
    (neg_areal_capacity k) (pos_areal_capacity k)
    (ANODE_LOADING_INCREASE_FACTOR k) (pos_areal_capacity_new k)
    (npr_actual k) (percent_more k) (stderr k).

(** [loading * QSP / 1000] *)
Definition areal_capacity (loading : list num) (qsp : num) : list num :=
  scalar_op div (scalar_op mul loading qsp) (of_Z 1000).

(** "Monte carlo sampling": two draws from the generator, the negative
    loading first. *)
Definition cell_monte_carlo (k : kernel) : kernel :=
  let n := 10000%nat in
  let '(neg, g1) := normal (NEG_LOADING_MEAN k) (neg_loading_std k) n (rng k) in
  let '(pos, g2) := normal (POS_LOADING_MEAN k) (pos_loading_std k) n g1 in
  Kernel g2
    (NEG_LOADING_MEAN k) (POS_LOADING_MEAN k) (NEG_QSP k) (POS_QSP k)
    (NEG_LOADING_CV k) (POS_LOADING_CV k)
    (neg_loading_std k) (pos_loading_std k) n
    neg pos
    (areal_capacity neg (NEG_QSP k)) (areal_capacity pos (POS_QSP k))
    (ANODE_LOADING_INCREASE_FACTOR k) (pos_areal_capacity_new k)
    (npr_actual k) (percent_more k) (stderr k).

(** The two lines every scenario ends with: the ratio is stored in
    [npr_actual] and its statistic in [percent_more]. *)
Definition assign_npr (k : kernel) (ratio : list num) (factor : num)
  (pos_new : list num) : kernel :=
  let '(p, w) := exceedance (of_Z 1) ratio in
  Kernel (rng k)
    (NEG_LOADING_MEAN k) (POS_LOADING_MEAN k) (NEG_QSP k) (POS_QSP k)
    (NEG_LOADING_CV k) (POS_LOADING_CV k)
    (neg_loading_std k) (pos_loading_std k) (N k)
    (neg_loading k) (pos_loading k)
    (neg_areal_capacity k) (pos_areal_capacity k)
    factor pos_new
    ratio p (stderr k ++ w).

(** "Plot the base case", its statements up to [percent_more]: after
    [xrange = [np.min(pos_areal_capacity), np.max(pos_areal_capacity)]],
    [npr_actual = neg_areal_capacity / pos_areal_capacity]. The loop over
    [npr_list] assigns the same quotient again. [None] when one of these
    statements raises. The calls of [plt] come after them in the cell:
    they assign no variable, and the first of them is in
    [cell_base_case_scatter] below. *)
Definition cell_base_case (k : kernel) : option kernel :=
  _ ← reduction_defined (pos_areal_capacity k);
  ratio ← broadcast div (neg_areal_capacity k) (pos_areal_capacity k);
  Some (assign_npr k ratio (ANODE_LOADING_INCREASE_FACTOR k)
          (pos_areal_capacity_new k)).

(** "Explore the effect of increasing the anode loading target", its
    statements up to [percent_more]:
    [npr_actual = neg_areal_capacity*ANODE_LOADING_INCREASE_FACTOR / pos_areal_capacity].
    The calls of [plt] come after them, see [cell_anode_loading_scatter]. *)
Definition cell_anode_loading (k : kernel) : option kernel :=
  let factor := dec 105 100 in
  _ ← reduction_defined (pos_areal_capacity k);
  ratio ← broadcast div (scalar_op mul (neg_areal_capacity k) factor)
                        (pos_areal_capacity k);
  Some (assign_npr k ratio factor (pos_areal_capacity_new k)).

(** The cell that lowers [POS_LOADING_CV] to 0.015 and draws the positive
    loading again, into [pos_areal_capacity_new]. *)
Definition cell_pos_cv (k : kernel) : kernel :=
  let pos_cv := dec 15 1000 in
  let pos_std := mul (POS_LOADING_MEAN k) pos_cv in
  let n := 10000%nat in
  let '(pos, g) := normal (POS_LOADING_MEAN k) pos_std n (rng k) in
  Kernel g
    (NEG_LOADING_MEAN k) (POS_LOADING_MEAN k) (NEG_QSP k) (POS_QSP k)
    (NEG_LOADING_CV k) pos_cv
    (neg_loading_std k) pos_std n
    (neg_loading k) pos
    (neg_areal_capacity k) (pos_areal_capacity k)
    (ANODE_LOADING_INCREASE_FACTOR k) (areal_capacity pos (POS_QSP k))
    (npr_actual k) (percent_more k) (stderr k).

(** "Explore the effect of decreasing positive loading CV", its
    statements up to [percent_more]:
    [npr_actual = neg_areal_capacity*ANODE_LOADING_INCREASE_FACTOR / pos_areal_capacity_new].
    The calls of [plt] come after them, see [cell_pos_variability_scatter]. *)
Definition cell_pos_variability (k : kernel) : option kernel :=
  _ ← reduction_defined (pos_areal_capacity_new k);
  _ ← reduction_defined (pos_areal_capacity k);
  ratio ← broadcast div
            (scalar_op mul (neg_areal_capacity k)
                           (ANODE_LOADING_INCREASE_FACTOR k))
            (pos_areal_capacity_new k);
  Some (assign_npr k ratio (ANODE_LOADING_INCREASE_FACTOR k)
          (pos_areal_capacity_new k)).

(** [plt.plot(x, y, ...)] with two one-dimensional arrays: matplotlib
    raises a [ValueError] unless [x] and [y] have the same first
    dimension. It does not broadcast. *)
Definition plt_plot (x y : list num) : option unit :=
  if (length x =? length y)%nat then Some () else None.

(** The base-case cell up to and including its scatter plot,
    [plt.plot(pos_areal_capacity, neg_areal_capacity, ...)], the first
    call of the cell that draws data. What follows it draws the three
    lines of constant NPR over [cap_x_vec] and sets labels, limits and
    title. *)
Definition cell_base_case_scatter (k : kernel) : option kernel :=
  k' ← cell_base_case k;
  _ ← plt_plot (pos_areal_capacity k') (neg_areal_capacity k');
  Some k'.

(** The anode-loading cell up to and including its two scatter plots,
    [plt.plot(pos_areal_capacity, neg_areal_capacity, ...)] and
    [plt.plot(pos_areal_capacity, neg_areal_capacity*ANODE_LOADING_INCREASE_FACTOR, ...)]. *)
Definition cell_anode_loading_scatter (k : kernel) : option kernel :=
  k' ← cell_anode_loading k;
  _ ← plt_plot (pos_areal_capacity k') (neg_areal_capacity k');
  _ ← plt_plot (pos_areal_capacity k')
        (scalar_op mul (neg_areal_capacity k')
                       (ANODE_LOADING_INCREASE_FACTOR k'));
  Some k'.

(** The last cell up to and including its two scatter plots,
    [plt.plot(pos_areal_capacity, neg_areal_capacity, ...)] and
    [plt.plot(pos_areal_capacity_new, neg_areal_capacity*ANODE_LOADING_INCREASE_FACTOR, ...)]. *)
Definition cell_pos_variability_scatter (k : kernel) : option kernel :=
  k' ← cell_pos_variability k;
  _ ← plt_plot (pos_areal_capacity k') (neg_areal_capacity k');
  _ ← plt_plot (pos_areal_capacity_new k')
        (scalar_op mul (neg_areal_capacity k')
                       (ANODE_LOADING_INCREASE_FACTOR k'));
  Some k'.

(** The notebook up to and including the sampling cell. *)
Definition sampled (g : G) : kernel :=
  cell_monte_carlo (cell_constants (cell_seed (boot g))).

(** "Run All". *)
Definition run_all (g : G) : option kernel :=
  k1 ← cell_base_case (sampled g);
  k2 ← cell_anode_loading k1;
  cell_pos_variability (cell_pos_cv k2).

(** "Run All", with the scatter plots of the three scenario cells. *)
Definition run_all_scatter (g : G) : option kernel :=
  k1 ← cell_base_case_scatter (sampled g);
  k2 ← cell_anode_loading_scatter k1;
  cell_pos_variability_scatter (cell_pos_cv k2).

End Notebook.

(** A small generator to run the notebook with: the state counts the
    variates drawn so far, and the [i]-th variate is the mean moved by
    between -3 and 3 standard deviations. *)
Definition toy_seed (s : Z) : nat := Z.to_nat s.

Definition toy_variate {num : Type} `{Arith num} (loc scale : num) (i : nat)
  : num :=
  add loc (mul scale (of_Z (Z.of_nat ((i * 5 + 2) mod 7) - 3))).

Definition toy_normal {num : Type} `{Arith num} (loc scale : num) (size : nat)
  (g : nat) : list num * nat :=
  ((λ i, toy_variate loc scale (g + i)) <$> seq 0 size, (g + size)%nat).

End NPR.

(** A kernel after the sampling cell, with three samples in place of ten
    thousand. *)
Definition three_samples : @NPR.kernel xnum nat :=
  NPR.Kernel 7%nat
    (dec 1485 100) (dec 2469 100) (of_Z 372) (of_Z 224)
    (dec 2 100) (dec 3 100)
    (mul (dec 1485 100) (dec 2 100)) (mul (dec 2469 100) (dec 3 100)) 3
    [Fin 15; Fin (29 # 2); Fin 14]
    [Fin 25; Fin 24; Fin (49 # 2)]
    (NPR.areal_capacity [Fin 15; Fin (29 # 2); Fin 14] (of_Z 372))
    (NPR.areal_capacity [Fin 25; Fin 24; Fin (49 # 2)] (of_Z 224))
    (of_Z 0) [] [] (of_Z 0) [].

(** ** The C-rate sweep of [power_vs_energy.ipynb] *)

Module Sweep.

(** One instruction of a [pybamm.Experiment]:
    [f"Discharge at {C_rate}C until 2.5V"]. *)
Inductive instruction (num : Type) : Type :=
  | DischargeAtCUntil (C_rate : num) (cutoff : string).
Arguments DischargeAtCUntil {num} C_rate cutoff.

(** [pybamm.Experiment([f"Discharge at {C_rate}C until 2.5V"])] *)
Definition experiment_of {num : Type} (C_rate : num) : list (instruction num) :=
  [DischargeAtCUntil C_rate "2.5V"].

(** The three series the harness reads from a solution:
    [sol["Time [s]"].data], [sol["Power [W]"].data] and
    [sol["Voltage [V]"].data]. *)
Record solution (num : Type) : Type := Solution {
  sol_time : list num;
  sol_power : list num;
  sol_voltage : list num;
}.
Arguments Solution {num} _ _ _.
Arguments sol_time {num} _.
Arguments sol_power {num} _.
Arguments sol_voltage {num} _.

(** An element of one of the lists of the aggregate: a number or an
    array. *)
Inductive item (num : Type) : Type :=
  | Number (x : num)
  | Array (a : list num).
Arguments Number {num} x.
Arguments Array {num} a.

(** What one iteration of the loop appends. *)
Record point (num : Type) : Type := Point {
  pt_voltage : list num;
  pt_time : list num;
  pt_energy : list num;
  pt_discharge_energy : num;
  pt_mean_power : num;
}.
Arguments Point {num} _ _ _ _ _.
Arguments pt_voltage {num} _.
Arguments pt_time {num} _.
Arguments pt_energy {num} _.
Arguments pt_discharge_energy {num} _.
Arguments pt_mean_power {num} _.

Section Harness.
Context {num : Type} `{Arith num}.

(** The solver is outside the repository: [pybamm.Simulation(model,
    parameter_values, experiment, solver).solve(initial_soc=1)] either
    returns a solution or raises. *)
Context {parameters solver_exn : Type}.
Variable solve :
  parameters → list (instruction num) → solver_exn + solution num.

(** A computation of the harness: it reads and extends the log of the
    experiments handed to the solver, and returns a value or raises. *)
Definition run (A : Type) : Type :=
  list (list (instruction num))
  → (exn solver_exn + A) * list (list (instruction num)).

#[export] Instance run_ret : MRet run := λ A a log, (inr a, log).

#[export] Instance run_bind : MBind run := λ A B f m log,
  match m log with
  | (inl e, log') => (inl e, log')
  | (inr a, log') => f a log'
  end.

Definition raise {A : Type} (e : exn solver_exn) : run A :=
  λ log, (inl e, log).

(** [sim.solve(initial_soc=1)]: one call of the solver, logged. *)
Definition sim_solve (parameter_values : parameters)
  (experiment : list (instruction num)) : run (solution num) :=
  λ log,
    (match solve parameter_values experiment with
     | inl e => inl (SolverError e)
     | inr sol => inr sol
     end, log ++ [experiment]).

(** [np.cumsum(power * np.diff(np.append(0, time))) / 3600] *)
Definition energy_integral (time power : list num) : option (list num) :=
  steps ← broadcast mul power (np_diff (np_append0 time));
  Some (scalar_op div (np_cumsum steps) (of_Z 3600)).

(** The aggregation of one solution: the lines between [sim.solve] and the
    five [append]. *)
Definition aggregate (sol : solution num) : exn solver_exn + point num :=
  let time := sol_time sol in
  let power := sol_power sol in
  let voltage := sol_voltage sol in
  match energy_integral time power with
  | None => inl ValueError
  | Some energy =>
      match py_last energy with
      | None => inl IndexError
      | Some discharge_energy =>
          inr (Point voltage time energy discharge_energy (np_mean power))
      end
  end.

(** [outputs[key].append(x)] *)
Definition dict_append (key : string) (x : item num)
  (outputs : gmap string (list (item num)))
  : gmap string (list (item num)) :=
  alter (λ l, l ++ [x]) key outputs.

(** The dictionary literal the function starts from. *)
Definition new_outputs (C_rates : list num) : gmap string (list (item num)) :=
  <["C-rate" := Number <$> C_rates]>
  (<["Energy [Wh]" := []]>
  (<["Discharge Energy [Wh]" := []]>
  (<["Time [s]" := []]>
  (<["Voltage [V]" := []]>
  (<["Mean Power [W]" := []]> ∅))))).

(** The five [append] at the end of the loop body. *)
Definition record_point (p : point num)
  (outputs : gmap string (list (item num)))
  : gmap string (list (item num)) :=
  dict_append "Mean Power [W]" (Number (pt_mean_power p))
  (dict_append "Discharge Energy [Wh]" (Number (pt_discharge_energy p))
  (dict_append "Energy [Wh]" (Array (pt_energy p))
  (dict_append "Time [s]" (Array (pt_time p))
  (dict_append "Voltage [V]" (Array (pt_voltage p)) outputs)))).

(** The body of [for C_rate in C_rates]. *)
Definition sweep_step (parameter_values : parameters) (C_rate : num)
  (outputs : gmap string (list (item num)))
  : run (gmap string (list (item num))) :=
  let experiment := experiment_of C_rate in
  sol ← sim_solve parameter_values experiment;
  match aggregate sol with
  | inl e => raise e
  | inr p => mret (record_point p outputs)
  end.

Fixpoint sweep_loop (parameter_values : parameters) (rates : list num)
  (outputs : gmap string (list (item num)))
  : run (gmap string (list (item num))) :=
  match rates with
  | [] => mret outputs
  | C_rate :: rest =>
      outputs' ← sweep_step parameter_values C_rate outputs;
      sweep_loop parameter_values rest outputs'
  end.

Definition sweep_c_rate (C_rates : list num) (parameter_values : parameters)
  : run (gmap string (list (item num))) :=
  sweep_loop parameter_values C_rates (new_outputs C_rates).

(** One point of the sweep as a function of its rate alone: the solver's
    answer, aggregated. *)
Definition point_of (parameter_values : parameters) (C_rate : num)
  : exn solver_exn + point num :=
  match solve parameter_values (experiment_of C_rate) with
  | inl e => inl (SolverError e)
  | inr sol => aggregate sol
  end.

(** The aggregate that holds the points [ps] for the rates [C_rates]. *)
Definition outputs_of (C_rates : list num) (ps : list (point num))
  : gmap string (list (item num)) :=
  <["C-rate" := Number <$> C_rates]>
  (<["Energy [Wh]" := (λ p, Array (pt_energy p)) <$> ps]>
  (<["Discharge Energy [Wh]" := (λ p, Number (pt_discharge_energy p)) <$> ps]>
  (<["Time [s]" := (λ p, Array (pt_time p)) <$> ps]>
  (<["Voltage [V]" := (λ p, Array (pt_voltage p)) <$> ps]>
  (<["Mean Power [W]" := (λ p, Number (pt_mean_power p)) <$> ps]> ∅))))).

(** The keys of the aggregate. *)
Definition metric_keys : list string :=
  ["C-rate"; "Energy [Wh]"; "Discharge Energy [Wh]"; "Time [s]";
   "Voltage [V]"; "Mean Power [W]"].

End Harness.
End Sweep.

(** [outputs[key][k]] *)
Definition entry {num : Type} (outputs : gmap string (list (Sweep.item num)))
  (key : string) (k : nat) : option (Sweep.item num) :=
  outputs !! key ≫= (λ l, l !! k).

(** A solver stub: a cell that reaches the cutoff up to 2C and fails
    above. *)
Definition stub_solve (parameter_values : unit)
  (experiment : list (Sweep.instruction xnum)) : string + Sweep.solution xnum :=
  match experiment with
  | [Sweep.DischargeAtCUntil (Fin c) _] =>
      if Qle_bool c 2
      then inr (Sweep.Solution [Fin 1800; Fin 3600]
                               [Fin (10 * c); Fin (8 * c)]
                               [Fin 4; Fin (5 # 2)])
      else inl "cutoff voltage not reached"
  | _ => inl "unsupported experiment"
  end.

(** ** The other cells of [power_vs_energy.ipynb] *)


Module Cells.

(** What Python raises while the arguments of the plotting calls are
    read. *)
Inductive error : Type :=
  | KeyError (key : string)   (* outputs[key] *)
  | IndexError                (* l[0] or l[-1] of an empty list *).

Inductive axes : Type := ax | ax2.

(** An argument of [plot]: a list of the dictionary, or one of its
    entries. *)
Inductive data (num : Type) : Type :=
  | Seq (l : list (Sweep.item num))
  | Elem (i : Sweep.item num).
Arguments Seq {num} l.
Arguments Elem {num} i.

(** matplotlib is outside the repository: a call is recorded with the
    arguments it is given, and not run. *)
Inductive call (num : Type) : Type :=
  | plot (on : axes) (x y : data num) (fmt color : option string)
  | set_xlabel (on : axes) (label : string)
  | set_ylabel (on : axes) (label : string) (color : option string)
  | tick_params (on : axes) (axis labelcolor : string)
  | set_xlim (on : axes) (left : Z) (right : Sweep.item num)
  | set_ylim (on : axes) (bottom : Z) (top : Sweep.item num)
  | grid (on : axes) (alpha : num).
Arguments plot {num} on x y fmt color.
Arguments set_xlabel {num} on label.
Arguments set_ylabel {num} on label color.
Arguments tick_params {num} on axis labelcolor.
Arguments set_xlim {num} on left right.
Arguments set_ylim {num} on bottom top.
Arguments grid {num} on alpha.

Section Cells.
Context {num : Type} `{Arith num}.

Definition bind {A B : Type} (m : error + A) (f : A → error + B)
  : error + B :=
  match m with
  | inl e => inl e
  | inr a => f a
  end.

(** [outputs[key]] *)
Definition getitem (outputs : gmap string (list (Sweep.item num)))
  (key : string) : error + list (Sweep.item num) :=
  match outputs !! key with
  | Some l => inr l
  | None => inl (KeyError key)
  end.

(** [l[0]] *)
Definition first_of (l : list (Sweep.item num)) : error + Sweep.item num :=
  match l with
  | [] => inl IndexError
  | x :: _ => inr x
  end.

(** [l[-1]] *)
Definition last_of (l : list (Sweep.item num)) : error + Sweep.item num :=
  match last l with
  | None => inl IndexError
  | Some x => inr x
  end.

(** [x * 1.1], for a number or an array. *)
Definition times (x : Sweep.item num) (c : num) : Sweep.item num :=
  match x with
  | Sweep.Number v => Sweep.Number (mul v c)
  | Sweep.Array a => Sweep.Array (scalar_op mul a c)
  end.

(** [plot_power_vs_energy(outputs)]: the calls made on the two axes, in
    their order, or the exception that stops the function. *)
Definition plot_power_vs_energy
  (outputs : gmap string (list (Sweep.item num)))
  : error + list (call num) :=
  bind (getitem outputs "C-rate") (λ c_rate,
  bind (getitem outputs "Discharge Energy [Wh]") (λ discharge,
  bind (first_of discharge) (λ discharge_0,
  bind (getitem outputs "Mean Power [W]") (λ mean_power,
  bind (last_of c_rate) (λ c_rate_last,
  bind (last_of mean_power) (λ mean_power_last,
  inr [ set_xlabel ax "C-rate";
        plot ax (Seq c_rate) (Seq discharge) (Some "-o") (Some "tab:red");
        set_ylabel ax "Energy [Wh]" (Some "tab:red");
        tick_params ax "y" "tab:red";
        set_ylim ax 0 (times discharge_0 (dec 11 10));
        plot ax2 (Seq c_rate) (Seq mean_power) (Some "-o") (Some "tab:blue");
        tick_params ax2 "y" "tab:blue";
        set_ylabel ax2 "Mean Power [W]" (Some "tab:blue");
        set_xlim ax2 0 c_rate_last;
        set_ylim ax2 0 (times mean_power_last (dec 11 10));
        grid ax (dec 5 10) ])))))).

(** [plot_voltage_vs_energy(outputs)]: one [ax.plot(energy, voltage)] per
    pair of [zip(outputs["Voltage [V]"], outputs["Energy [Wh]"])]. *)
Definition plot_voltage_vs_energy
  (outputs : gmap string (list (Sweep.item num)))
  : error + list (call num) :=
  bind (getitem outputs "Voltage [V]") (λ voltages,
  bind (getitem outputs "Energy [Wh]") (λ energies,
  inr (zip_with (λ voltage energy,
                   plot ax (Elem energy) (Elem voltage) None None)
                voltages energies
       ++ [ set_xlabel ax "Energy [Wh]";
            set_ylabel ax "Voltage [V]" None;
            grid ax (dec 5 10) ]))).

(** [parameter_values[key] *= c]; [None] is the [KeyError] of a key that
    is not in the parameter set. *)
Definition imul (key : string) (c : num) (parameter_values : gmap string num)
  : option (gmap string num) :=
  x ← parameter_values !! key;
  Some (<[key := mul x c]> parameter_values).

(** The parameters of the power cell, from a fresh copy [chen2020] of the
    parameter set: both electrode thicknesses times [1/2], the electrode
    height times 2. *)
Definition power_cell (chen2020 : gmap string num)
  : option (gmap string num) :=
  pv ← imul "Negative electrode thickness [m]" (div (of_Z 1) (of_Z 2)) chen2020;
  pv ← imul "Positive electrode thickness [m]" (div (of_Z 1) (of_Z 2)) pv;
  imul "Electrode height [m]" (of_Z 2) pv.

End Cells.
End Cells.

(** ** The sweep as a traversal *)

Section Traversal.
Context {num : Type} `{Arith num} {parameters solver_exn : Type}.
Variable solve :
  parameters → list (Sweep.instruction num) → solver_exn + Sweep.solution num.

(** The points of the rates, or the first exception among them. *)
Fixpoint collect (parameter_values : parameters) (rates : list num)
  : exn solver_exn + list (Sweep.point num) :=
  match rates with
  | [] => inr []
  | r :: rest =>
      match Sweep.point_of solve parameter_values r with
      | inl e => inl e
      | inr p =>
          match collect parameter_values rest with
          | inl e => inl e
          | inr ps => inr (p :: ps)
          end
      end
  end.

(** The rates up to the first one whose point raises, that one
    included. *)
Fixpoint attempted (parameter_values : parameters) (rates : list num)
  : list num :=
  match rates with
  | [] => []
  | r :: rest =>
      r :: match Sweep.point_of solve parameter_values r with
           | inl _ => []
           | inr _ => attempted parameter_values rest
           end
  end.

End Traversal.

(** ** The statistic as the specification words it *)

#[export] Instance Qlt_decision (a b : Q) : Decision (a < b)%Q.
Proof.
  destruct (Qlt_le_dec a b) as [Hlt | Hge]; [left | right]; [exact Hlt |].
  now apply Qle_not_lt.
Defined.

#[export] Instance xlt_decision (x y : xnum) : Decision (xlt x y).
Proof. destruct x, y; simpl; apply _. Defined.

(** The number of elements strictly less than the threshold. *)
Definition below_count (threshold : xnum) (ratios : list xnum) : nat :=
  length (filter (λ r, xlt r threshold) ratios).

(** [count(ratio < threshold) / N], as a percentage. *)
Definition exceedance_spec (threshold : xnum) (ratios : list xnum) : Q :=
  (inject_Z (Z.of_nat (below_count threshold ratios))
   / inject_Z (Z.of_nat (length ratios)) * 100)%Q.

(** The sum of a list of rationals, to compare [np.sum] with. *)
Definition Qsum (l : list Q) : Q := fold_right Qplus 0%Q l.

(** ** Facts on the arithmetic and on the array operations *)

Lemma xltb_lt (x y : xnum) : xltb x y = true ↔ xlt x y.
Proof.
  destruct x as [a| | |], y as [b| | |]; simpl; try tauto; try easy.
  rewrite Qlt_alt. destruct (a ?= b)%Q; split; congruence.
Qed.

Lemma xeq_not_lt (x y : xnum) : xeq x y → ¬ xlt x y.
Proof.
  destruct x as [a| | |], y as [b| | |]; simpl; try tauto.
  intros Heq Hlt. rewrite Heq in Hlt. now apply Qlt_irrefl in Hlt.
Qed.

Lemma xeq_refl (x : xnum) : xeq x x.
Proof. destruct x; simpl; [reflexivity | exact I ..]. Qed.

Lemma inject_Z_nonzero (z : Z) : z ≠ 0 → Qeq_bool (inject_Z z) 0 = false.
Proof.
  intros Hz. destruct (Qeq_bool (inject_Z z) 0) eqn:E; [| reflexivity].
  apply Qeq_bool_eq in E. unfold Qeq in E. simpl in E. lia.
Qed.

Section NumpyFacts.
Context {num : Type} `{Arith num}.

Lemma bool_sum_from (mask : list bool) (acc : Z) :
  fold_left (λ acc (b : bool), if b then acc + 1 else acc) mask acc
  = acc + Z.of_nat (length (List.filter id mask)).
Proof.
  revert acc. induction mask as [| b mask IH]; intros acc; simpl.
  - lia.
  - rewrite IH. destruct b; simpl; lia.
Qed.

Lemma filter_id_map {A : Type} (p : A → bool) (a : list A) :
  List.filter id (p <$> a) = p <$> List.filter p a.
Proof.
  induction a as [| x a IH]; [reflexivity |].
  cbn [fmap list_fmap List.filter]. unfold id at 1.
  destruct (p x) eqn:E; cbn [fmap list_fmap]; rewrite ?E, IH; reflexivity.
Qed.

Lemma bool_sum_less (a : list num) (c : num) :
  bool_sum (np_less a c)
  = Z.of_nat (length (List.filter (λ x, ltb x c) a)).
Proof.
  unfold bool_sum, np_less.
  rewrite bool_sum_from, filter_id_map, length_fmap. lia.
Qed.

(** The warnings of the statistic depend on the number of samples alone,
    whatever the arithmetic. *)
Lemma exceedance_warnings (t : num) (npr : list num) :
  snd (exceedance t npr)
  = match npr with [] => [InvalidValueInDivide] | _ :: _ => [] end.
Proof.
  unfold exceedance, int_true_divide. destruct npr; reflexivity.
Qed.

Lemma exceedance_value (t : num) (npr : list num) :
  fst (exceedance t npr)
  = mul (div (of_Z (Z.of_nat (length (List.filter (λ x, ltb x t) npr))))
             (of_Z (Z.of_nat (length npr))))
        (of_Z 100).
Proof. unfold exceedance, int_true_divide. simpl. now rewrite bool_sum_less. Qed.

End NumpyFacts.

Lemma filter_xltb_count (t : xnum) (rs : list xnum) :
  length (List.filter (λ x, xltb x t) rs) = below_count t rs.
Proof.
  unfold below_count. induction rs as [| r rs IH]; simpl; [reflexivity |].
  rewrite filter_cons. destruct (decide (xlt r t)) as [Hlt | Hnlt].
  - apply xltb_lt in Hlt. rewrite Hlt. simpl. now rewrite IH.
  - destruct (xltb r t) eqn:E; [| exact IH].
    apply xltb_lt in E. contradiction.
Qed.

Lemma xdiv_int (a : Q) (b : Z) :
  b ≠ 0 → xdiv (Fin a) (Fin (inject_Z b)) = Fin (a / inject_Z b).
Proof. intros Hb. unfold xdiv. now rewrite inject_Z_nonzero. Qed.

Ltac exact_ops :=
  change (@mul xnum _) with xmul in *; change (@div xnum _) with xdiv in *;
  change (@add xnum _) with xadd in *; change (@sub xnum _) with xsub in *;
  change (@ltb xnum _) with xltb in *;
  change (@of_Z xnum _) with (λ z, Fin (inject_Z z)) in *; cbv beta in *.

Lemma exceedance_nonempty (t : xnum) (rs : list xnum) :
  rs ≠ [] →
  exceedance t rs
  = (Fin (inject_Z (Z.of_nat (below_count t rs))
          / inject_Z (Z.of_nat (length rs)) * inject_Z 100), []).
Proof.
  intros Hne.
  rewrite (surjective_pairing (exceedance t rs)).
  rewrite exceedance_warnings, exceedance_value.
  destruct rs as [| r rs]; [contradiction |].
  rewrite filter_xltb_count. exact_ops.
  rewrite xdiv_int by (simpl; lia). reflexivity.
Qed.

(** C1: for a non-empty ratio sequence and any threshold, the statistic is
    the number of elements strictly less than the threshold, over the
    length of the sequence, times 100, and no warning is emitted; an
    element equal to the threshold adds nothing to the count. *)
Theorem exceedance_is_percentage (threshold : xnum) (ratios : list xnum) :
  ratios ≠ [] →
  (∃ p : Q, exceedance threshold ratios = (Fin p, [])
            ∧ (p == exceedance_spec threshold ratios)%Q)
  ∧ (∀ r, xeq r threshold →
          below_count threshold (r :: ratios) = below_count threshold ratios).
Proof.
  intros Hne. split.
  - eexists. split; [apply (exceedance_nonempty _ _ Hne) | reflexivity].
  - intros r Heq. unfold below_count. rewrite filter_cons.
    destruct (decide (xlt r threshold)) as [Hlt | _]; [| reflexivity].
    now apply xeq_not_lt in Hlt.
Qed.

Lemma exceedance_is_percentage_witness :
  (∃ p : Q, exceedance (Fin 1) [Fin (9 # 10); Fin 1; Fin (11 # 10)]
            = (Fin p, [])
            ∧ (p == exceedance_spec (Fin 1) [Fin (9 # 10); Fin 1; Fin (11 # 10)])%Q)
  ∧ (∀ r, xeq r (Fin 1) →
          below_count (Fin 1) (r :: [Fin (9 # 10); Fin 1; Fin (11 # 10)])
          = below_count (Fin 1) [Fin (9 # 10); Fin 1; Fin (11 # 10)]).
Proof.
  apply (exceedance_is_percentage (Fin 1) [Fin (9 # 10); Fin 1; Fin (11 # 10)]).
  discriminate.
Defined.

(** C7: with no sample the division is 0 / 0: the statistic is NaN and
    numpy's warning is all that happens, nothing guards the case; with at
    least one sample the divisor is not zero, the statistic is a finite
    number and there is no warning. *)
Theorem exceedance_division (threshold : xnum) (npr : list xnum) :
  match npr with
  | [] => exceedance threshold npr = (NaN, [InvalidValueInDivide])
  | _ :: _ => ∃ q : Q, exceedance threshold npr = (Fin q, [])
  end.
Proof.
  destruct npr as [| r rs]; [reflexivity |].
  eexists. now apply exceedance_nonempty.
Qed.

(** The same expression in binary64: two ratios of four below 1, and the
    empty array. *)
Example exceedance_binary64 :
  exceedance (num := float) (of_Z 1) [dec 9 10; of_Z 1; dec 11 10; dec 1 2]
  = (of_Z 50, []).
Proof. vm_compute. reflexivity. Qed.

Example exceedance_binary64_no_sample :
  exceedance (num := float) (of_Z 1) [] = (nan, [InvalidValueInDivide]).
Proof. vm_compute. reflexivity. Qed.

(** In the notebook itself a cell with no sample stops one line earlier:
    [np.min] of the empty [pos_areal_capacity] raises. *)
Lemma cell_base_case_no_sample {num : Type} `{Arith num} {G : Type}
  (k : @NPR.kernel num G) :
  NPR.pos_areal_capacity k = [] → NPR.cell_base_case k = None.
Proof. intros E. unfold NPR.cell_base_case. now rewrite E. Qed.

(** ** The anode loading factor and the exceedance *)

Lemma Qcompare_pos (f : Q) : (1 <= f)%Q → (f ?= 0)%Q = Gt ∧ (0 ?= f)%Q = Lt.
Proof.
  intros Hf. split.
  - rewrite <- Qgt_alt. lra.
  - rewrite <- Qlt_alt. lra.
Qed.

Lemma xlt_sgn_inf (c : comparison) (y : Q) : xlt (sgn_inf c) (Fin y) ↔ c = Lt.
Proof. destruct c; simpl; split; try tauto; try congruence. Qed.

(** One cell: a ratio that is below 1 after the numerator is scaled by
    [f >= 1] was below 1 before. *)
Lemma scaled_ratio_below (f : Q) (a b : xnum) :
  (1 <= f)%Q →
  xlt (xdiv (xmul a (Fin f)) b) (Fin 1) → xlt (xdiv a b) (Fin 1).
Proof.
  intros Hf. destruct (Qcompare_pos f Hf) as [Hgt Hlt].
  destruct a as [a| | |], b as [b| | |]; simpl; rewrite ?Hgt, ?Hlt; simpl;
    try tauto.
  destruct (Qeq_bool b 0) eqn:Eb.
  - rewrite !xlt_sgn_inf, <- !Qlt_alt. nra.
  - simpl. apply Qeq_bool_neq in Eb. intros Hlt1.
    destruct (Qlt_le_dec (a / b) 1) as [| Hge]; [assumption | exfalso].
    assert (E : (a * f / b == (a / b) * f)%Q) by (field; exact Eb).
    rewrite E in Hlt1. nra.
Qed.

Lemma unit_ratio_below (f : Q) (a b : xnum) :
  (f == 1)%Q →
  xlt (xdiv a b) (Fin 1) → xlt (xdiv (xmul a (Fin f)) b) (Fin 1).
Proof.
  intros Hf. assert (Hf1 : (1 <= f)%Q) by lra.
  destruct (Qcompare_pos f Hf1) as [Hgt Hlt].
  destruct a as [a| | |], b as [b| | |]; simpl; rewrite ?Hgt, ?Hlt; simpl;
    try tauto.
  destruct (Qeq_bool b 0) eqn:Eb.
  - rewrite !xlt_sgn_inf, <- !Qlt_alt. nra.
  - simpl. apply Qeq_bool_neq in Eb. intros Hlt1.
    assert (E : (a * f / b == a / b)%Q) by (rewrite Hf; field; exact Eb).
    now rewrite E.
Qed.

Section Broadcast.
Context {num : Type} `{Arith num}.

Lemma zip_with_related (R : num → num → Prop) (op : num → num → num)
  (g : num → num) (a b : list num) :
  (∀ x y, R (op (g x) y) (op x y)) →
  Forall2 R (zip_with op (g <$> a) b) (zip_with op a b).
Proof.
  intros HR. revert b.
  induction a as [| x a IH]; intros [| y b]; simpl; constructor; auto.
Qed.

(** Both quotients take the same branch of the broadcast, so they are
    related cell by cell. *)
Lemma broadcast_related (R : num → num → Prop) (op : num → num → num)
  (g : num → num) (a b r r' : list num) :
  (∀ x y, R (op (g x) y) (op x y)) →
  broadcast op a b = Some r →
  broadcast op (g <$> a) b = Some r' →
  Forall2 R r' r.
Proof.
  intros HR. unfold broadcast. rewrite length_fmap.
  destruct (length a =? length b)%nat.
  - intros [= <-] [= <-]. now apply zip_with_related.
  - destruct a as [| x [| x' a]]; simpl.
    + destruct b as [| y [| y' b]]; [discriminate | | discriminate].
      intros [= <-] [= <-]. constructor.
    + intros [= <-] [= <-].
      induction b as [| y b IH]; simpl; constructor; auto.
    + destruct b as [| y [| y' b]]; [discriminate | | discriminate].
      intros [= <-] [= <-]. simpl.
      constructor; [apply HR |]. constructor; [apply HR |].
      induction a as [| z a IH]; simpl; constructor; auto.
Qed.

End Broadcast.

Lemma below_count_related (R : xnum → xnum → Prop) (t : xnum)
  (r' r : list xnum) :
  (∀ u' u, R u' u → xlt u' t → xlt u t) →
  Forall2 R r' r → (below_count t r' ≤ below_count t r)%nat.
Proof.
  intros HR Hrel. unfold below_count.
  induction Hrel as [| u' u r' r Hu Hrel IH]; [reflexivity |].
  rewrite !filter_cons.
  destruct (decide (xlt u' t)) as [Hlt | _].
  - destruct (decide (xlt u t)) as [_ | Hn]; [simpl; lia |].
    exfalso. apply Hn. eauto.
  - destruct (decide (xlt u t)); simpl; lia.
Qed.

Lemma percentage_le (c' c n : Z) :
  0 < n → c' ≤ c →
  (inject_Z c' / inject_Z n * inject_Z 100
   <= inject_Z c / inject_Z n * inject_Z 100)%Q.
Proof.
  intros Hn Hc.
  apply Qmult_le_compat_r; [| discriminate].
  apply Qmult_le_compat_r; [now rewrite <- Zle_Qle |].
  apply Qinv_le_0_compat. change 0%Q with (inject_Z 0).
  rewrite <- Zle_Qle. lia.
Qed.

Lemma exceedance_le (t : xnum) (r' r : list xnum) :
  length r' = length r →
  (below_count t r' ≤ below_count t r)%nat →
  xle (fst (exceedance t r')) (fst (exceedance t r)).
Proof.
  intros Hlen Hc. destruct r as [| u r].
  - destruct r'; [| discriminate]. right. apply xeq_refl.
  - destruct r' as [| u' r']; [discriminate |].
    rewrite !exceedance_nonempty by discriminate. rewrite Hlen.
    cbn [fst]. unfold xle, xlt, xeq.
    apply Qle_lt_or_eq, percentage_le; simpl length; lia.
Qed.

Lemma exceedance_same_count (t : xnum) (r' r : list xnum) :
  length r' = length r →
  below_count t r' = below_count t r →
  exceedance t r' = exceedance t r.
Proof.
  intros Hlen Hc. destruct r as [| u r].
  - now destruct r'.
  - destruct r' as [| u' r']; [discriminate |].
    rewrite !exceedance_nonempty by discriminate. now rewrite Hlen, Hc.
Qed.

(** C3, as the notebook computes it: the exceedance of
    [neg * f / pos] against that of [neg / pos], at the threshold 1. With
    [f >= 1] the count of cells below 1 and the percentage do not increase,
    and with [f = 1] both are unchanged. *)
Theorem anode_factor_never_increases (neg pos r r' : list xnum) (f : Q) :
  (1 <= f)%Q →
  broadcast div neg pos = Some r →
  broadcast div (scalar_op mul neg (Fin f)) pos = Some r' →
  (below_count (Fin 1) r' ≤ below_count (Fin 1) r)%nat
  ∧ xle (fst (exceedance (Fin 1) r')) (fst (exceedance (Fin 1) r))
  ∧ ((f == 1)%Q → exceedance (Fin 1) r' = exceedance (Fin 1) r).
Proof.
  intros Hf Hr Hr'. unfold scalar_op in Hr'. exact_ops.
  assert (Hdown : Forall2 (λ u' u, xlt u' (Fin 1) → xlt u (Fin 1)) r' r).
  { eapply (broadcast_related _ xdiv (λ x, xmul x (Fin f))); eauto.
    intros x y. now apply scaled_ratio_below. }
  assert (Hlen : length r' = length r) by (eapply Forall2_length; eauto).
  assert (Hc : (below_count (Fin 1) r' ≤ below_count (Fin 1) r)%nat).
  { eapply below_count_related; [| exact Hdown]. auto. }
  split; [exact Hc |]. split; [now apply exceedance_le |].
  intros Hf1. apply exceedance_same_count; [exact Hlen |].
  apply Nat.le_antisymm; [exact Hc |].
  eapply (below_count_related (λ u u', xlt u (Fin 1) → xlt u' (Fin 1))).
  - auto.
  - apply Forall2_flip.
    eapply (broadcast_related _ xdiv (λ x, xmul x (Fin f))); eauto.
    intros x y. now apply unit_ratio_below.
Qed.

Lemma anode_factor_never_increases_witness :
  (below_count (Fin 1) [Fin ((9 # 10) * (6 # 5) / 1); Fin ((6 # 5) * (6 # 5) / 1)]
   ≤ below_count (Fin 1) [Fin ((9 # 10) / 1); Fin ((6 # 5) / 1)])%nat
  ∧ xle (fst (exceedance (Fin 1)
                [Fin ((9 # 10) * (6 # 5) / 1); Fin ((6 # 5) * (6 # 5) / 1)]))
        (fst (exceedance (Fin 1) [Fin ((9 # 10) / 1); Fin ((6 # 5) / 1)]))
  ∧ ((6 # 5 == 1)%Q →
     exceedance (Fin 1)
       [Fin ((9 # 10) * (6 # 5) / 1); Fin ((6 # 5) * (6 # 5) / 1)]
     = exceedance (Fin 1) [Fin ((9 # 10) / 1); Fin ((6 # 5) / 1)]).
Proof.
  apply (anode_factor_never_increases
           [Fin (9 # 10); Fin (6 # 5)] [Fin 1; Fin 1] _ _ (6 # 5)).
  - discriminate.
  - reflexivity.
  - reflexivity.
Defined.

(** The claim of a strict decrease fails where no cell crosses the
    threshold: with ratios 0.5 and 1.2 and the factor 1.05 one cell of two
    is below 1 before and after. *)
Lemma anode_factor_not_strict :
  ∃ r r' : list xnum,
    broadcast div [Fin (1 # 2); Fin (6 # 5)] [Fin 1; Fin 1] = Some r
    ∧ broadcast div (scalar_op mul [Fin (1 # 2); Fin (6 # 5)] (Fin (21 # 20)))
                    [Fin 1; Fin 1] = Some r'
    ∧ (1 < 21 # 20)%Q
    ∧ exceedance (Fin 1) r = (Fin (1 / 2 * 100), [])
    ∧ exceedance (Fin 1) r' = (Fin (1 / 2 * 100), [])
    ∧ ¬ xlt (fst (exceedance (Fin 1) r')) (fst (exceedance (Fin 1) r)).
Proof.
  eexists. eexists.
  split; [reflexivity |]. split; [reflexivity |]. split; [reflexivity |].
  split; [reflexivity |]. split; [reflexivity |].
  simpl. apply Qlt_irrefl.
Qed.

(** ** Which cells of the notebook draw from the generator *)

Section NotebookFacts.
Context {num : Type} `{Arith num} {G : Type}.
Variable seed : Z → G.
Variable normal : num → num → nat → G → list num * G.

(** The two closing lines of a scenario touch [npr_actual],
    [percent_more] and the warnings, and nothing that was sampled. *)
Lemma assign_npr_frame (k : @NPR.kernel num G) (ratio : list num)
  (factor : num) (pos_new : list num) :
  let k' := NPR.assign_npr k ratio factor pos_new in
  NPR.rng k' = NPR.rng k
  ∧ NPR.pos_loading k' = NPR.pos_loading k
  ∧ NPR.pos_areal_capacity k' = NPR.pos_areal_capacity k
  ∧ NPR.neg_areal_capacity k' = NPR.neg_areal_capacity k
  ∧ NPR.npr_actual k' = ratio
  ∧ NPR.percent_more k' = fst (exceedance (of_Z 1) ratio).
Proof.
  intros k'. subst k'. unfold NPR.assign_npr.
  destruct (exceedance (of_Z 1) ratio) as [p w]. simpl.
  repeat split; reflexivity.
Qed.

Lemma cell_base_case_frame (k k' : @NPR.kernel num G) :
  NPR.cell_base_case k = Some k' →
  NPR.rng k' = NPR.rng k
  ∧ NPR.pos_loading k' = NPR.pos_loading k
  ∧ NPR.pos_areal_capacity k' = NPR.pos_areal_capacity k
  ∧ NPR.neg_areal_capacity k' = NPR.neg_areal_capacity k
  ∧ broadcast div (NPR.neg_areal_capacity k) (NPR.pos_areal_capacity k)
    = Some (NPR.npr_actual k').
Proof.
  unfold NPR.cell_base_case.
  destruct (reduction_defined _); [| discriminate]. cbn [mbind option_bind].
  destruct (broadcast div _ _) as [ratio |] eqn:E; [| discriminate].
  simpl. intros [= <-].
  destruct (assign_npr_frame k ratio (NPR.ANODE_LOADING_INCREASE_FACTOR k)
              (NPR.pos_areal_capacity_new k)) as (? & ? & ? & ? & Hr & _).
  rewrite Hr. auto.
Qed.

Lemma cell_anode_loading_frame (k k' : @NPR.kernel num G) :
  NPR.cell_anode_loading k = Some k' →
  NPR.rng k' = NPR.rng k
  ∧ NPR.pos_loading k' = NPR.pos_loading k
  ∧ NPR.pos_areal_capacity k' = NPR.pos_areal_capacity k
  ∧ NPR.neg_areal_capacity k' = NPR.neg_areal_capacity k
  ∧ broadcast div (scalar_op mul (NPR.neg_areal_capacity k) (dec 105 100))
                  (NPR.pos_areal_capacity k)
    = Some (NPR.npr_actual k').
Proof.
  unfold NPR.cell_anode_loading.
  destruct (reduction_defined _); [| discriminate]. cbn [mbind option_bind].
  destruct (broadcast div _ _) as [ratio |] eqn:E; [| discriminate].
  simpl. intros [= <-].
  destruct (assign_npr_frame k ratio (dec 105 100)
              (NPR.pos_areal_capacity_new k)) as (? & ? & ? & ? & Hr & _).
  rewrite Hr. auto.
Qed.

(** The cell that lowers the positive CV is the one that draws again. *)
Lemma cell_pos_cv_draws (k : @NPR.kernel num G) :
  (NPR.pos_loading (NPR.cell_pos_cv normal k), NPR.rng (NPR.cell_pos_cv normal k))
  = normal (NPR.POS_LOADING_MEAN k)
           (mul (NPR.POS_LOADING_MEAN k) (dec 15 1000)) 10000 (NPR.rng k)
  ∧ NPR.pos_areal_capacity_new (NPR.cell_pos_cv normal k)
    = NPR.areal_capacity (NPR.pos_loading (NPR.cell_pos_cv normal k))
        (NPR.POS_QSP k)
  ∧ NPR.pos_areal_capacity (NPR.cell_pos_cv normal k)
    = NPR.pos_areal_capacity k.
Proof.
  unfold NPR.cell_pos_cv. destruct (normal _ _ _ _) as [pos g]. simpl. auto.
Qed.

(** C8, as the code has it: the anode-loading cell leaves the generator
    where the base case left it and divides by the very
    [pos_areal_capacity] the base case divided by; the positive loading is
    drawn again by the later cell that lowers its CV, from the generator
    state the sampling cell left, and the capacities of that draw are
    stored in [pos_areal_capacity_new] while [pos_areal_capacity] keeps
    the array of the base case. *)
Theorem anode_cell_reuses_positive_samples (k k1 k2 : @NPR.kernel num G) :
  NPR.cell_base_case k = Some k1 →
  NPR.cell_anode_loading k1 = Some k2 →
  NPR.rng k2 = NPR.rng k
  ∧ NPR.pos_loading k2 = NPR.pos_loading k
  ∧ NPR.pos_areal_capacity k2 = NPR.pos_areal_capacity k
  ∧ broadcast div (NPR.neg_areal_capacity k) (NPR.pos_areal_capacity k)
    = Some (NPR.npr_actual k1)
  ∧ broadcast div (scalar_op mul (NPR.neg_areal_capacity k) (dec 105 100))
                  (NPR.pos_areal_capacity k)
    = Some (NPR.npr_actual k2)
  ∧ (NPR.pos_loading (NPR.cell_pos_cv normal k2),
     NPR.rng (NPR.cell_pos_cv normal k2))
    = normal (NPR.POS_LOADING_MEAN k2)
             (mul (NPR.POS_LOADING_MEAN k2) (dec 15 1000)) 10000 (NPR.rng k)
  ∧ NPR.pos_areal_capacity_new (NPR.cell_pos_cv normal k2)
    = NPR.areal_capacity
        (fst (normal (NPR.POS_LOADING_MEAN k2)
                (mul (NPR.POS_LOADING_MEAN k2) (dec 15 1000)) 10000
                (NPR.rng k)))
        (NPR.POS_QSP k2)
  ∧ NPR.pos_areal_capacity (NPR.cell_pos_cv normal k2)
    = NPR.pos_areal_capacity k
  ∧ NPR.neg_areal_capacity (NPR.cell_pos_cv normal k2)
    = NPR.neg_areal_capacity k.
Proof.
  intros H1 H2.
  destruct (cell_base_case_frame _ _ H1) as (Hg1 & Hl1 & Hp1 & Hn1 & Hr1).
  destruct (cell_anode_loading_frame _ _ H2) as (Hg2 & Hl2 & Hp2 & Hn2 & Hr2).
  rewrite Hn1, Hp1 in Hr2.
  assert (Hn3 : NPR.neg_areal_capacity (NPR.cell_pos_cv normal k2)
                = NPR.neg_areal_capacity k2).
  { unfold NPR.cell_pos_cv. now destruct (normal _ _ _ _). }
  destruct (cell_pos_cv_draws k2) as (Hd & Hnew & Hkeep).
  rewrite Hg2, Hg1 in Hd.
  repeat split; try congruence.
  rewrite Hnew. f_equal. now rewrite <- Hd.
Qed.

(** Arrays of one length divide without error. *)
Lemma broadcast_same_length (op : num → num → num) (a b : list num) :
  length a = length b → broadcast op a b = Some (zip_with op a b).
Proof. intros E. unfold broadcast. now rewrite E, Nat.eqb_refl. Qed.

Hypothesis normal_length :
  ∀ loc scale size g, length (fst (normal loc scale size g)) = size.

Lemma sampled_lengths (g : G) :
  length (NPR.neg_areal_capacity (NPR.sampled seed normal g)) = 10000%nat
  ∧ length (NPR.pos_areal_capacity (NPR.sampled seed normal g)) = 10000%nat.
Proof using normal_length.
  unfold NPR.sampled, NPR.cell_monte_carlo.
  destruct (normal _ _ _ _) as [neg g1] eqn:E1.
  destruct (normal _ _ _ g1) as [pos g2] eqn:E2. simpl.
  unfold NPR.areal_capacity, scalar_op. rewrite !length_fmap.
  lazymatch type of E1 with
  | normal ?l ?s ?n ?g0 = _ =>
      pose proof (normal_length l s n g0) as L1; rewrite E1 in L1
  end.
  lazymatch type of E2 with
  | normal ?l ?s ?n ?g0 = _ =>
      pose proof (normal_length l s n g0) as L2; rewrite E2 in L2
  end.
  simpl in L1, L2. auto.
Qed.

Lemma ten_thousand_defined (a : list num) :
  length a = 10000%nat → reduction_defined a = Some ().
Proof. destruct a; [intros Hlen; vm_compute in Hlen; discriminate | reflexivity]. Qed.

(** With a generator that returns as many samples as it is asked for, the
    base case and the anode-loading cell run without error. *)
Lemma scenarios_run (g : G) :
  ∃ k1 k2,
    NPR.cell_base_case (NPR.sampled seed normal g) = Some k1
    ∧ NPR.cell_anode_loading k1 = Some k2.
Proof using normal_length.
  destruct (sampled_lengths g) as [Ln Lp].
  unfold NPR.cell_base_case at 1.
  rewrite (ten_thousand_defined _ Lp). cbn [mbind option_bind].
  rewrite broadcast_same_length by congruence. simpl.
  eexists. eexists. split; [reflexivity |].
  unfold NPR.cell_anode_loading.
  destruct (assign_npr_frame (NPR.sampled seed normal g)
              (zip_with div (NPR.neg_areal_capacity (NPR.sampled seed normal g))
                            (NPR.pos_areal_capacity (NPR.sampled seed normal g)))
              (NPR.ANODE_LOADING_INCREASE_FACTOR (NPR.sampled seed normal g))
              (NPR.pos_areal_capacity_new (NPR.sampled seed normal g)))
    as (_ & _ & Hp & Hn & _).
  rewrite Hp, (ten_thousand_defined _ Lp). cbn [mbind option_bind].
  rewrite <- Hp.
  rewrite broadcast_same_length; [reflexivity |].
  unfold scalar_op. rewrite length_fmap, Hp, Hn. congruence.
Qed.

End NotebookFacts.

Lemma toy_normal_length {num : Type} `{Arith num} (loc scale : num)
  (size g : nat) :
  length (fst (NPR.toy_normal loc scale size g)) = size.
Proof. unfold NPR.toy_normal. simpl. now rewrite length_fmap, length_seq. Qed.

Lemma anode_cell_reuses_positive_samples_witness :
  ∃ k1 k2 : @NPR.kernel xnum nat,
    NPR.cell_base_case three_samples = Some k1
    ∧ NPR.cell_anode_loading k1 = Some k2
    ∧ NPR.rng k2 = NPR.rng three_samples
    ∧ NPR.pos_loading k2 = NPR.pos_loading three_samples
    ∧ NPR.pos_areal_capacity k2 = NPR.pos_areal_capacity three_samples
    ∧ broadcast div (NPR.neg_areal_capacity three_samples)
                    (NPR.pos_areal_capacity three_samples)
      = Some (NPR.npr_actual k1)
    ∧ broadcast div
        (scalar_op mul (NPR.neg_areal_capacity three_samples) (dec 105 100))
        (NPR.pos_areal_capacity three_samples)
      = Some (NPR.npr_actual k2)
    ∧ (NPR.pos_loading (NPR.cell_pos_cv NPR.toy_normal k2),
       NPR.rng (NPR.cell_pos_cv NPR.toy_normal k2))
      = NPR.toy_normal (NPR.POS_LOADING_MEAN k2)
          (mul (NPR.POS_LOADING_MEAN k2) (dec 15 1000)) 10000
          (NPR.rng three_samples)
    ∧ NPR.pos_areal_capacity_new (NPR.cell_pos_cv NPR.toy_normal k2)
      = NPR.areal_capacity
          (fst (NPR.toy_normal (NPR.POS_LOADING_MEAN k2)
                  (mul (NPR.POS_LOADING_MEAN k2) (dec 15 1000)) 10000
                  (NPR.rng three_samples)))
          (NPR.POS_QSP k2)
    ∧ NPR.pos_areal_capacity (NPR.cell_pos_cv NPR.toy_normal k2)
      = NPR.pos_areal_capacity three_samples
    ∧ NPR.neg_areal_capacity (NPR.cell_pos_cv NPR.toy_normal k2)
      = NPR.neg_areal_capacity three_samples.
Proof.
  eexists. eexists.
  split; [reflexivity |]. split; [reflexivity |].
  apply (anode_cell_reuses_positive_samples NPR.toy_normal three_samples);
    reflexivity.
Defined.

(** The notebook run with the toy generator: the anode-loading cell has
    run, the generator has not moved since the sampling cell, and the
    positive samples are those of the base case. No fresh draw feeds the
    second scenario. *)
Lemma anode_cell_draws_nothing :
  ∃ k1 k2 : @NPR.kernel xnum nat,
    NPR.cell_base_case (NPR.sampled NPR.toy_seed NPR.toy_normal 0%nat) = Some k1
    ∧ NPR.cell_anode_loading k1 = Some k2
    ∧ NPR.rng k2 = NPR.rng (NPR.sampled NPR.toy_seed NPR.toy_normal 0%nat)
    ∧ NPR.pos_loading k2
      = NPR.pos_loading (NPR.sampled NPR.toy_seed NPR.toy_normal 0%nat)
    ∧ NPR.pos_areal_capacity k2
      = NPR.pos_areal_capacity (NPR.sampled NPR.toy_seed NPR.toy_normal 0%nat)
    ∧ NPR.pos_areal_capacity k2 = NPR.pos_areal_capacity k1.
Proof.
  destruct (scenarios_run (num := xnum) NPR.toy_seed NPR.toy_normal
              toy_normal_length 0%nat)
    as (k1 & k2 & H1 & H2).
  exists k1, k2.
  destruct (cell_base_case_frame _ _ H1) as (Hg1 & Hl1 & Hp1 & _).
  destruct (cell_anode_loading_frame _ _ H2) as (Hg2 & Hl2 & Hp2 & _).
  split; [exact H1 |]. split; [exact H2 |].
  rewrite Hg2, Hl2, Hp2. auto.
Qed.

(** ** The sweep *)

Section SweepFacts.
Context {num : Type} `{Arith num} {parameters solver_exn : Type}.
Variable solve :
  parameters → list (Sweep.instruction num) → solver_exn + Sweep.solution num.

Ltac push_alter :=
  repeat first [ rewrite alter_insert_eq | rewrite alter_insert_ne by done ].

(** One iteration extends each of the five lists by the entry of its
    point, and leaves ["C-rate"] alone. *)
Lemma record_point_outputs_of (C_rates : list num)
  (ps : list (Sweep.point num)) (p : Sweep.point num) :
  Sweep.record_point p (Sweep.outputs_of C_rates ps)
  = Sweep.outputs_of C_rates (ps ++ [p]).
Proof.
  unfold Sweep.record_point, Sweep.dict_append, Sweep.outputs_of.
  push_alter. rewrite !fmap_app. reflexivity.
Qed.

Lemma sweep_step_eq (pv : parameters) (r : num)
  (outputs : gmap string (list (Sweep.item num)))
  (log : list (list (Sweep.instruction num))) :
  Sweep.sweep_step solve pv r outputs log
  = (match Sweep.point_of solve pv r with
     | inl e => inl e
     | inr p => inr (Sweep.record_point p outputs)
     end, log ++ [Sweep.experiment_of r]).
Proof.
  unfold Sweep.sweep_step, Sweep.point_of, Sweep.sim_solve.
  unfold mbind, Sweep.run_bind.
  destruct (solve pv _) as [e | sol]; [reflexivity |].
  destruct (Sweep.aggregate sol) as [e | p]; reflexivity.
Qed.

Lemma sweep_loop_cons (pv : parameters) (r : num) (rest : list num)
  (outputs : gmap string (list (Sweep.item num)))
  (log : list (list (Sweep.instruction num))) :
  Sweep.sweep_loop solve pv (r :: rest) outputs log
  = match Sweep.sweep_step solve pv r outputs log with
    | (inl e, log') => (inl e, log')
    | (inr outputs', log') => Sweep.sweep_loop solve pv rest outputs' log'
    end.
Proof. reflexivity. Qed.

(** The loop over a list of rates whose points all come out. *)
Lemma sweep_loop_ok (pv : parameters) (C_rates rates : list num)
  (done ps : list (Sweep.point num))
  (log : list (list (Sweep.instruction num))) :
  Forall2 (λ r p, Sweep.point_of solve pv r = inr p) rates ps →
  Sweep.sweep_loop solve pv rates (Sweep.outputs_of C_rates done) log
  = (inr (Sweep.outputs_of C_rates (done ++ ps)),
     log ++ (Sweep.experiment_of <$> rates)).
Proof.
  intros Hps. revert done log.
  induction Hps as [| r p rates ps Hp Hps IH]; intros done log.
  - simpl. now rewrite !app_nil_r.
  - rewrite sweep_loop_cons, sweep_step_eq, Hp, record_point_outputs_of.
    rewrite IH. simpl. now rewrite <- !app_assoc.
Qed.

(** The loop up to the first rate whose point raises: the exception is
    the result, and the log ends with that rate. *)
Lemma sweep_loop_raises (pv : parameters) (C_rates pre post : list num)
  (r : num) (e : exn solver_exn) (done ps : list (Sweep.point num))
  (log : list (list (Sweep.instruction num))) :
  Forall2 (λ r p, Sweep.point_of solve pv r = inr p) pre ps →
  Sweep.point_of solve pv r = inl e →
  Sweep.sweep_loop solve pv (pre ++ r :: post)
    (Sweep.outputs_of C_rates done) log
  = (inl e, log ++ (Sweep.experiment_of <$> pre) ++ [Sweep.experiment_of r]).
Proof.
  intros Hps He. revert done log.
  induction Hps as [| r' p pre ps Hp Hps IH]; intros done log.
  - cbn [app]. now rewrite sweep_loop_cons, sweep_step_eq, He.
  - cbn [app].
    rewrite sweep_loop_cons, sweep_step_eq, Hp, record_point_outputs_of.
    rewrite IH. simpl. now rewrite <- !app_assoc.
Qed.

(** Every list of rates is of one of the two kinds. *)
Lemma rates_split (pv : parameters) (rates : list num) :
  (∃ ps, Forall2 (λ r p, Sweep.point_of solve pv r = inr p) rates ps)
  ∨ (∃ pre r post ps e,
       rates = pre ++ r :: post
       ∧ Forall2 (λ r p, Sweep.point_of solve pv r = inr p) pre ps
       ∧ Sweep.point_of solve pv r = inl e).
Proof.
  induction rates as [| r rates IH].
  - left. exists []. constructor.
  - destruct (Sweep.point_of solve pv r) as [e | p] eqn:Hr.
    + right. exists [], r, rates, [], e. repeat split; [constructor | exact Hr].
    + destruct IH as [[ps Hps] | (pre & r' & post & ps & e & -> & Hps & He)].
      * left. exists (p :: ps). now constructor.
      * right. exists (r :: pre), r', post, (p :: ps), e.
        repeat split; [now constructor | exact He].
Qed.

Lemma new_outputs_of (C_rates : list num) :
  Sweep.new_outputs C_rates = Sweep.outputs_of C_rates [].
Proof. reflexivity. Qed.

Lemma outputs_of_dom (C_rates : list num) (ps : list (Sweep.point num)) :
  dom (Sweep.outputs_of C_rates ps) = list_to_set Sweep.metric_keys.
Proof.
  unfold Sweep.outputs_of, Sweep.metric_keys.
  rewrite !dom_insert_L, dom_empty_L. simpl. reflexivity.
Qed.

Lemma outputs_of_Forall (P : string → list (Sweep.item num) → Prop)
  (C_rates : list num) (ps : list (Sweep.point num)) :
  P "C-rate" (Sweep.Number <$> C_rates) →
  (∀ key (f : Sweep.point num → Sweep.item num), P key (f <$> ps)) →
  map_Forall P (Sweep.outputs_of C_rates ps).
Proof.
  intros HC Hps. unfold Sweep.outputs_of.
  repeat (apply map_Forall_insert_2; [first [exact HC | apply Hps] |]).
  apply map_Forall_empty.
Qed.

End SweepFacts.

Section SweepClaims.
Context {num : Type} `{Arith num} {parameters solver_exn : Type}.
Variable solve :
  parameters → list (Sweep.instruction num) → solver_exn + Sweep.solution num.

Lemma outputs_of_entry (C_rates : list num) (ps : list (Sweep.point num))
  (k : nat) :
  entry (Sweep.outputs_of C_rates ps) "C-rate" k
  = Sweep.Number <$> C_rates !! k
  ∧ entry (Sweep.outputs_of C_rates ps) "Energy [Wh]" k
    = (λ p, Sweep.Array (Sweep.pt_energy p)) <$> ps !! k
  ∧ entry (Sweep.outputs_of C_rates ps) "Discharge Energy [Wh]" k
    = (λ p, Sweep.Number (Sweep.pt_discharge_energy p)) <$> ps !! k
  ∧ entry (Sweep.outputs_of C_rates ps) "Time [s]" k
    = (λ p, Sweep.Array (Sweep.pt_time p)) <$> ps !! k
  ∧ entry (Sweep.outputs_of C_rates ps) "Voltage [V]" k
    = (λ p, Sweep.Array (Sweep.pt_voltage p)) <$> ps !! k
  ∧ entry (Sweep.outputs_of C_rates ps) "Mean Power [W]" k
    = (λ p, Sweep.Number (Sweep.pt_mean_power p)) <$> ps !! k.
Proof.
  unfold entry, Sweep.outputs_of.
  repeat split; simplify_map_eq; apply list_lookup_fmap.
Qed.

(** C5: the sweep of no rate returns the dictionary literal as it is:
    no exception, the six keys, an empty list under each of them, and a
    solver log that has not grown. *)
Theorem sweep_of_no_rate (parameter_values : parameters)
  (log : list (list (Sweep.instruction num))) :
  ∃ outputs,
    Sweep.sweep_c_rate solve [] parameter_values log = (inr outputs, log)
    ∧ dom outputs = list_to_set Sweep.metric_keys
    ∧ map_Forall (λ _ l, l = []) outputs.
Proof.
  exists (Sweep.outputs_of [] []). split; [reflexivity |].
  split; [apply outputs_of_dom |].
  apply outputs_of_Forall; reflexivity.
Qed.

(** C6: when the solver raises at a rate, after the rates before it have
    given their points, the sweep returns that exception and no
    dictionary; the solver has been called once for each rate up to the
    failing one, and for none after it. *)
Theorem solver_failure_aborts (parameter_values : parameters)
  (pre post : list num) (r : num) (e : solver_exn)
  (ps : list (Sweep.point num))
  (log : list (list (Sweep.instruction num))) :
  Forall2 (λ r p, Sweep.point_of solve parameter_values r = inr p) pre ps →
  solve parameter_values (Sweep.experiment_of r) = inl e →
  Sweep.sweep_c_rate solve (pre ++ r :: post) parameter_values log
  = (inl (SolverError e),
     log ++ (Sweep.experiment_of <$> pre) ++ [Sweep.experiment_of r]).
Proof.
  intros Hps He. unfold Sweep.sweep_c_rate. rewrite new_outputs_of.
  apply (sweep_loop_raises solve _ _ _ _ _ _ _ ps); [exact Hps |].
  unfold Sweep.point_of. now rewrite He.
Qed.

(** C9: a sweep that returns has one point per rate, in the order of the
    rates; the dictionary holds the rates themselves under ["C-rate"] and,
    under each other key, the entries of those points in that order, so
    every list has the length of the input and its k-th entry comes from
    the solver's answer for the k-th rate. *)
Theorem sweep_aggregate_aligned (C_rates : list num)
  (parameter_values : parameters)
  (log log' : list (list (Sweep.instruction num)))
  (outputs : gmap string (list (Sweep.item num))) :
  Sweep.sweep_c_rate solve C_rates parameter_values log = (inr outputs, log') →
  dom outputs = list_to_set Sweep.metric_keys
  ∧ map_Forall (λ _ l, length l = length C_rates) outputs
  ∧ outputs !! "C-rate" = Some (Sweep.Number <$> C_rates)
  ∧ log' = log ++ (Sweep.experiment_of <$> C_rates)
  ∧ ∀ k r, C_rates !! k = Some r →
      ∃ p, Sweep.point_of solve parameter_values r = inr p
        ∧ entry outputs "C-rate" k = Some (Sweep.Number r)
        ∧ entry outputs "Energy [Wh]" k
          = Some (Sweep.Array (Sweep.pt_energy p))
        ∧ entry outputs "Discharge Energy [Wh]" k
          = Some (Sweep.Number (Sweep.pt_discharge_energy p))
        ∧ entry outputs "Time [s]" k = Some (Sweep.Array (Sweep.pt_time p))
        ∧ entry outputs "Voltage [V]" k
          = Some (Sweep.Array (Sweep.pt_voltage p))
        ∧ entry outputs "Mean Power [W]" k
          = Some (Sweep.Number (Sweep.pt_mean_power p)).
Proof.
  unfold Sweep.sweep_c_rate. rewrite new_outputs_of. intros Hrun.
  destruct (rates_split solve parameter_values C_rates)
    as [[ps Hps] | (pre & r & post & ps & e & -> & Hps & He)].
  - rewrite (sweep_loop_ok solve _ _ _ _ ps _ Hps) in Hrun.
    injection Hrun as <- <-. simpl.
    split; [apply outputs_of_dom |].
    split.
    { apply outputs_of_Forall.
      - apply length_fmap.
      - intros _ f. rewrite length_fmap. symmetry.
        eapply Forall2_length, Hps. }
    split; [reflexivity |]. split; [reflexivity |].
    intros k r Hr.
    destruct (Forall2_lookup_l _ _ _ _ _ Hps Hr) as (p & Hp & Hrp).
    exists p. split; [exact Hrp |].
    destruct (outputs_of_entry C_rates ps k) as (E1 & E2 & E3 & E4 & E5 & E6).
    rewrite E1, E2, E3, E4, E5, E6, Hr, Hp. repeat split; reflexivity.
  - rewrite (sweep_loop_raises solve _ _ _ _ _ _ _ ps _ Hps He) in Hrun.
    discriminate.
Qed.

End SweepClaims.

Lemma solver_failure_aborts_witness :
  Sweep.sweep_c_rate stub_solve ([Fin 1; Fin 2] ++ Fin 5 :: [Fin (1 # 2)]) () []
  = (inl (SolverError "cutoff voltage not reached"),
     [] ++ (Sweep.experiment_of <$> [Fin 1; Fin 2])
        ++ [Sweep.experiment_of (Fin 5)]).
Proof.
  eapply (solver_failure_aborts stub_solve () [Fin 1; Fin 2]).
  - constructor; [reflexivity |]. constructor; [reflexivity |]. constructor.
  - reflexivity.
Defined.

Lemma stub_sweep_runs :
  ∃ ps : list (Sweep.point xnum),
    Sweep.sweep_c_rate stub_solve [Fin 1; Fin 2] () []
    = (inr (Sweep.outputs_of [Fin 1; Fin 2] ps),
       [] ++ (Sweep.experiment_of <$> [Fin 1; Fin 2])).
Proof.
  eexists. unfold Sweep.sweep_c_rate. rewrite new_outputs_of.
  apply (sweep_loop_ok stub_solve () [Fin 1; Fin 2] [Fin 1; Fin 2] []).
  constructor; [reflexivity |]. constructor; [reflexivity |]. constructor.
Defined.

Lemma sweep_aggregate_aligned_witness :
  ∃ outputs log',
    Sweep.sweep_c_rate stub_solve [Fin 1; Fin 2] () [] = (inr outputs, log')
    ∧ dom outputs = list_to_set Sweep.metric_keys
    ∧ map_Forall (λ _ l, length l = length [Fin 1; Fin 2]) outputs
    ∧ outputs !! "C-rate" = Some (Sweep.Number <$> [Fin 1; Fin 2])
    ∧ log' = [] ++ (Sweep.experiment_of <$> [Fin 1; Fin 2]).
Proof.
  destruct stub_sweep_runs as [ps Hrun].
  eexists. eexists. split; [exact Hrun |].
  destruct (sweep_aggregate_aligned stub_solve [Fin 1; Fin 2] () [] _ _ Hrun)
    as (Hd & Hl & Hc & Hlog & _).
  auto.
Defined.

(** ** The energy integral *)

Section EnergyFacts.
Context {num : Type} `{Arith num}.

Lemma before_cons {A : Type} (x0 y : A) (l : list A) (k : nat) :
  is_Some (l !! k) → before x0 (y :: l) (S k) = before y l k.
Proof.
  intros [t Ht]. destruct k as [| j]; [reflexivity |]. simpl.
  destruct (l !! j) eqn:E; [reflexivity |].
  apply lookup_ge_None in E. apply lookup_lt_Some in Ht. lia.
Qed.

Lemma np_diff_cons (x0 y : num) (l : list num) :
  np_diff (x0 :: y :: l) = sub y x0 :: np_diff (y :: l).
Proof. reflexivity. Qed.

Lemma cumsum_from_cons (acc y : num) (l : list num) :
  cumsum_from acc (y :: l) = add acc y :: cumsum_from (add acc y) l.
Proof. reflexivity. Qed.

Lemma np_diff_lookup (x0 : num) (l : list num) (k : nat) (t : num) :
  l !! k = Some t →
  np_diff (x0 :: l) !! k = Some (sub t (before x0 l k)).
Proof.
  revert x0 k. induction l as [| y l IH]; intros x0 k Hk; [discriminate |].
  rewrite np_diff_cons. destruct k as [| k].
  - injection Hk as ->. reflexivity.
  - simpl in Hk. rewrite lookup_cons.
    rewrite (IH y k Hk), before_cons by eauto. reflexivity.
Qed.

Lemma np_diff_length (x0 : num) (l : list num) :
  length (np_diff (x0 :: l)) = length l.
Proof.
  revert x0. induction l as [| y l IH]; intros x0; [reflexivity |].
  rewrite np_diff_cons. cbn [length]. now rewrite IH.
Qed.

Lemma cumsum_from_length (acc : num) (l : list num) :
  length (cumsum_from acc l) = length l.
Proof.
  revert acc. induction l as [| y l IH]; intros acc; [reflexivity |].
  rewrite cumsum_from_cons. cbn [length]. now rewrite IH.
Qed.

Lemma cumsum_from_lookup (acc : num) (l : list num) (k : nat) (x : num) :
  l !! k = Some x →
  cumsum_from acc l !! k
  = Some (add (before acc (cumsum_from acc l) k) x).
Proof.
  revert acc k. induction l as [| y l IH]; intros acc k Hk; [discriminate |].
  rewrite cumsum_from_cons. destruct k as [| k].
  - injection Hk as ->. reflexivity.
  - simpl in Hk. rewrite lookup_cons.
    rewrite (IH _ k Hk), before_cons; [reflexivity |].
    apply lookup_lt_is_Some. rewrite cumsum_from_length.
    now apply lookup_lt_Some in Hk.
Qed.

Lemma np_cumsum_length (l : list num) : length (np_cumsum l) = length l.
Proof. destruct l; [reflexivity |]. simpl. now rewrite cumsum_from_length. Qed.

Lemma np_cumsum_first (l : list num) : np_cumsum l !! 0%nat = l !! 0%nat.
Proof. now destruct l. Qed.

(** Each running sum is the one before it plus the next element. *)
Lemma np_cumsum_next (l : list num) (j : nat) (x : num) :
  l !! S j = Some x →
  ∃ s, np_cumsum l !! j = Some s ∧ np_cumsum l !! S j = Some (add s x).
Proof.
  destruct l as [| x0 l]; [discriminate |]. simpl. intros Hx.
  rewrite (cumsum_from_lookup x0 l j x Hx).
  destruct j as [| i]; [now exists x0 |].
  simpl. destruct (cumsum_from x0 l !! i) as [s |] eqn:E; [now exists s |].
  apply lookup_ge_None in E. rewrite cumsum_from_length in E.
  apply lookup_lt_Some in Hx. lia.
Qed.

Lemma energy_integral_same_length (time power : list num) :
  length time = length power →
  Sweep.energy_integral time power
  = Some (scalar_op div
            (np_cumsum (zip_with mul power (np_diff (np_append0 time))))
            (of_Z 3600)).
Proof.
  intros Hlen. unfold Sweep.energy_integral, broadcast, np_append0.
  now rewrite np_diff_length, Hlen, Nat.eqb_refl.
Qed.

End EnergyFacts.

Lemma xadd_zero_l (x : xnum) : xeq x (xadd (Fin 0) x).
Proof. destruct x; simpl; try exact I. ring. Qed.

Lemma xdiv_3600_add (a b : xnum) :
  xeq (xdiv (xadd a b) (Fin 3600))
      (xadd (xdiv a (Fin 3600)) (xdiv b (Fin 3600))).
Proof. destruct a, b; simpl; try exact I; try reflexivity. field. Qed.

(** C2, in exact arithmetic: for a time and a power sequence of one
    positive length, the energy sequence has that length and satisfies
    [energy[k] = energy[k-1] + power[k] * (time[k] - time[k-1]) / 3600],
    with 0 before the first energy and before the first time; the
    discharge energy the harness records is its last element. *)
Theorem energy_recurrence {E : Type} (time power voltage : list xnum) :
  length time = length power →
  (0 < length time)%nat →
  ∃ energy,
    Sweep.energy_integral time power = Some energy
    ∧ length energy = length time
    ∧ (∀ k t p e,
         time !! k = Some t → power !! k = Some p → energy !! k = Some e →
         xeq e (xadd (before (Fin 0) energy k)
                     (xdiv (xmul p (xsub t (before (Fin 0) time k)))
                           (Fin 3600))))
    ∧ ∃ discharge_energy,
        last energy = Some discharge_energy
        ∧ Sweep.aggregate (solver_exn := E)
            (Sweep.Solution time power voltage)
          = inr (Sweep.Point voltage time energy discharge_energy
                   (np_mean power)).
Proof.
  intros Hlen Hpos.
  pose proof (energy_integral_same_length time power Hlen) as Hint.
  set (steps := zip_with mul power (np_diff (np_append0 time))) in Hint.
  set (energy := scalar_op div (np_cumsum steps) (of_Z 3600)) in Hint.
  assert (Hlen_steps : length steps = length time).
  { unfold steps, np_append0. rewrite length_zip_with, np_diff_length. lia. }
  assert (Hlen_energy : length energy = length time).
  { unfold energy, scalar_op. now rewrite length_fmap, np_cumsum_length. }
  exists energy. split; [exact Hint |]. split; [exact Hlen_energy |]. split.
  - intros k t p e Ht Hp He.
    assert (Hstep : steps !! k = Some (xmul p (xsub t (before (Fin 0) time k)))).
    { unfold steps, np_append0. rewrite lookup_zip_with, Hp.
      cbn [mbind option_bind].
      now rewrite (np_diff_lookup _ _ _ _ Ht). }
    unfold energy, scalar_op in He |- *. rewrite list_lookup_fmap in He.
    destruct k as [| j].
    + rewrite np_cumsum_first, Hstep in He. injection He as <-.
      apply xadd_zero_l.
    + destruct (np_cumsum_next steps j _ Hstep) as (s & Hs & Hnext).
      rewrite Hnext in He. injection He as <-.
      simpl before. rewrite list_lookup_fmap, Hs. simpl.
      apply xdiv_3600_add.
  - destruct (last energy) as [d |] eqn:Hlast.
    + exists d. split; [reflexivity |].
      unfold Sweep.aggregate. simpl. rewrite Hint.
      unfold py_last. now rewrite Hlast.
    + apply last_None in Hlast. rewrite Hlast in Hlen_energy.
      simpl in Hlen_energy. lia.
Qed.

Lemma energy_recurrence_witness :
  ∃ energy,
    Sweep.energy_integral [Fin 10; Fin 20; Fin 40] [Fin 3; Fin 2; Fin 1]
    = Some energy
    ∧ length energy = length [Fin 10; Fin 20; Fin 40].
Proof.
  destruct (energy_recurrence (E := unit)
              [Fin 10; Fin 20; Fin 40] [Fin 3; Fin 2; Fin 1] []
              eq_refl ltac:(simpl; lia))
    as (energy & Hint & Hlen & _).
  exists energy. split; assumption.
Defined.

(** In binary64 the recurrence fails. The code divides the running sum of
    [power[k] * dt[k]] by 3600, and that is not the sum of the divided
    increments once every operation rounds: with the times 1, 2, 3 and the
    power 1 throughout, [energy[2]] is not
    [energy[1] + power[2] * (time[2] - time[1]) / 3600]. *)
Lemma energy_recurrence_inexact_in_binary64 :
  let time : list float := [of_Z 1; of_Z 2; of_Z 3] in
  let power : list float := [of_Z 1; of_Z 1; of_Z 1] in
  ∃ energy t p e,
    Sweep.energy_integral time power = Some energy
    ∧ time !! 2%nat = Some t ∧ power !! 2%nat = Some p
    ∧ energy !! 2%nat = Some e
    ∧ e ≠ add (before (of_Z 0) energy 2)
              (div (mul p (sub t (before (of_Z 0) time 2))) (of_Z 3600)).
Proof.
  intros time power. eexists. eexists. eexists. eexists.
  split; [vm_compute; reflexivity |].
  split; [reflexivity |]. split; [reflexivity |]. split; [reflexivity |].
  intros Heq.
  lazymatch type of Heq with
  | _ = ?rhs => pose proof (f_equal (λ x, PrimFloat.eqb x rhs) Heq) as C
  end.
  vm_compute in C. discriminate C.
Qed.

(** *** Monotonicity *)

#[export] Instance xle_transitive : Transitive xle.
Proof.
  intros x y z. unfold xle.
  destruct x as [a| | |], y as [b| | |], z as [c| | |]; simpl;
    intros [Hxy | Hxy] [Hyz | Hyz]; try tauto; try contradiction.
  - left. lra.
  - left. lra.
  - left. lra.
  - right. lra.
Qed.

Lemma xdiv_3600_mono (x y : xnum) :
  xle x y → xle (xdiv x (Fin 3600)) (xdiv y (Fin 3600)).
Proof.
  unfold xle. destruct x as [a| | |], y as [b| | |]; simpl;
    intros [Hxy | Hxy]; try tauto; try contradiction.
  - left. unfold Qdiv. apply Qmult_lt_compat_r; [reflexivity | exact Hxy].
  - right. now rewrite Hxy.
Qed.

Lemma xmul_nonneg (a b : xnum) :
  fin_nonneg a → fin_nonneg b → fin_nonneg (xmul a b).
Proof.
  destruct a as [a| | |], b as [b| | |]; simpl; try tauto.
  intros Ha Hb. now apply Qmult_le_0_compat.
Qed.

Lemma broadcast_Forall {num : Type} `{Arith num} (P : num → Prop)
  (op : num → num → num) (a b r : list num) :
  (∀ x y, P x → P y → P (op x y)) →
  Forall P a → Forall P b → broadcast op a b = Some r → Forall P r.
Proof.
  intros Hop Ha Hb. unfold broadcast.
  destruct (length a =? length b)%nat.
  - intros [= <-]. revert b Hb.
    induction Ha as [| x a Hx Ha IH]; intros [| y b] Hb; simpl;
      try constructor.
    + inversion Hb; subst. now apply Hop.
    + inversion Hb; subst. now apply IH.
  - destruct a as [| x [| x' a]].
    + destruct b as [| y [| y' b]]; [discriminate | | discriminate].
      intros [= <-]. constructor.
    + intros [= <-]. inversion Ha; subst.
      apply Forall_fmap. eapply Forall_impl; [exact Hb |]. simpl. auto.
    + destruct b as [| y [| y' b]]; [discriminate | | discriminate].
      intros [= <-]. inversion Hb; subst.
      change (Forall P ((λ x0, op x0 y) <$> (x :: x' :: a))).
      apply Forall_fmap. eapply Forall_impl; [exact Ha |]. simpl. auto.
Qed.

Lemma diff_nonneg (t0 : Q) (ts : list Q) :
  Sorted Qle (t0 :: ts) →
  Forall fin_nonneg (np_diff (Fin t0 :: (Fin <$> ts))).
Proof.
  revert t0. induction ts as [| t ts IH]; intros t0 Hs; [constructor |].
  rewrite fmap_cons. rewrite (np_diff_cons (num := xnum)).
  inversion Hs as [| ? ? Hs' Hhd]; subst. inversion Hhd; subst.
  constructor; [| now apply IH].
  simpl. lra.
Qed.

Lemma cumsum_from_sorted (a : Q) (steps : list xnum) :
  Forall fin_nonneg steps →
  Sorted xle (Fin a :: cumsum_from (Fin a) steps).
Proof.
  intros Hs. revert a.
  induction Hs as [| s steps Hs _ IH]; intros a.
  - repeat constructor.
  - destruct s as [s| | |]; try contradiction.
    rewrite (cumsum_from_cons (num := xnum)). simpl add.
    constructor; [apply IH |]. constructor.
    unfold xle. simpl in *. apply Qle_lt_or_eq. lra.
Qed.

Lemma np_cumsum_sorted (steps : list xnum) :
  Forall fin_nonneg steps → Sorted xle (np_cumsum steps).
Proof.
  intros Hs. destruct Hs as [| s steps Hs Hrest]; [constructor |].
  destruct s as [s| | |]; try contradiction.
  simpl. now apply cumsum_from_sorted.
Qed.

(** C10: with a power that is nowhere negative and times that start at 0
    or later and never go back, every element of the energy sequence is
    at most each of the elements after it. *)
Theorem energy_nondecreasing (time power : list Q) (energy : list xnum) :
  Forall (λ p, (0 <= p)%Q) power →
  Sorted Qle time →
  (∀ t, head time = Some t → (0 <= t)%Q) →
  Sweep.energy_integral (Fin <$> time) (Fin <$> power) = Some energy →
  StronglySorted xle energy.
Proof.
  intros Hp Ht H0. unfold Sweep.energy_integral, np_append0.
  destruct (broadcast mul _ _) as [steps |] eqn:Hsteps; [| discriminate].
  simpl. intros [= <-].
  apply Sorted_StronglySorted; [apply _ |].
  unfold scalar_op. apply (Sorted_fmap _ xle xle); [apply xdiv_3600_mono |].
  apply np_cumsum_sorted.
  eapply (broadcast_Forall fin_nonneg); [| | | exact Hsteps].
  - apply xmul_nonneg.
  - apply Forall_fmap. eapply Forall_impl; [exact Hp |]. simpl. auto.
  - apply (diff_nonneg 0 time). constructor; [exact Ht |].
    destruct time as [| t time]; constructor. now apply H0.
Qed.

Lemma energy_nondecreasing_witness :
  StronglySorted xle
    (scalar_op div
       (np_cumsum (zip_with mul (Fin <$> [3; 0; 2]%Q)
                     (np_diff (np_append0 (Fin <$> [5; 10; 20]%Q)))))
       (of_Z 3600)).
Proof.
  apply (energy_nondecreasing [5; 10; 20]%Q [3; 0; 2]%Q).
  - repeat constructor; discriminate.
  - repeat constructor; discriminate.
  - intros t [= <-]. discriminate.
  - reflexivity.
Defined.

(** *** Pairwise summation *)

Section PairwiseFacts.
Context {num : Type} `{Arith num}.

(** The fuel does not matter once it covers the length of the array. *)
Lemma pairwise_sum_fuel (fuel fuel' : nat) (a : list num) :
  (length a ≤ fuel)%nat → (length a ≤ fuel')%nat →
  pairwise_sum fuel a = pairwise_sum fuel' a.
Proof.
  revert fuel' a. induction fuel as [| f IH]; intros fuel' a Hf Hf'.
  - destruct a; [| simpl in Hf; lia]. now destruct fuel'.
  - destruct fuel' as [| f'].
    + destruct a; [reflexivity | simpl in Hf'; lia].
    + cbn [pairwise_sum].
      destruct (Nat.ltb_spec (length a) 8) as [H8 | H8]; [reflexivity |].
      destruct (Nat.leb_spec (length a) 128) as [H128 | H128]; [reflexivity |].
      set (n2 := (length a / 2 - (length a / 2) mod 8)%nat).
      assert (Hn2 : (0 < n2 < length a)%nat).
      { unfold n2.
        pose proof (Nat.mod_upper_bound (length a / 2) 8 ltac:(lia)).
        pose proof (Nat.div_mod_eq (length a) 2).
        pose proof (Nat.mod_upper_bound (length a) 2 ltac:(lia)).
        lia. }
      rewrite (IH f' (take n2 a)), (IH f' (drop n2 a));
        rewrite ?length_take, ?length_drop; try lia.
      reflexivity.
Qed.

End PairwiseFacts.

Lemma Qsum_app (l l' : list Q) : (Qsum (l ++ l') == Qsum l + Qsum l')%Q.
Proof.
  induction l as [| x l IH]; simpl; [ring |]. rewrite IH. ring.
Qed.

Lemma Qsum_take_drop (n : nat) (l : list Q) :
  (Qsum (take n l) + Qsum (drop n l) == Qsum l)%Q.
Proof. rewrite <- Qsum_app. now rewrite take_drop. Qed.

Lemma Qsum_zip_with (r b : list Q) :
  length r = length b →
  (Qsum (zip_with Qplus r b) == Qsum r + Qsum b)%Q.
Proof.
  revert b. induction r as [| x r IH]; intros [| y b] Hlen;
    simpl in *; try discriminate; [ring |].
  rewrite IH by lia. ring.
Qed.

Lemma fold_left_xadd_Fin (l : list Q) (a : Q) :
  ∃ s, fold_left xadd (Fin <$> l) (Fin a) = Fin s ∧ (s == a + Qsum l)%Q.
Proof.
  revert a. induction l as [| x l IH]; intros a.
  - exists a. split; [reflexivity |]. simpl. ring.
  - destruct (IH (a + x)%Q) as (s & Hs & Heq).
    exists s. split; [exact Hs |]. rewrite Heq. simpl. ring.
Qed.

Lemma zip_with_xadd_Fin (r b : list Q) :
  zip_with xadd (Fin <$> r) (Fin <$> b) = Fin <$> zip_with Qplus r b.
Proof.
  revert b. induction r as [| x r IH]; intros [| y b]; simpl; try reflexivity.
  now rewrite IH.
Qed.

Lemma accumulate8_Fin (k : nat) (r a : list Q) :
  length r = 8%nat → (8 * k ≤ length a)%nat →
  ∃ r' a',
    accumulate8 (num := xnum) (Fin <$> r) (Fin <$> a) k
    = (Fin <$> r', Fin <$> a')
    ∧ length r' = 8%nat
    ∧ (Qsum r' + Qsum a' == Qsum r + Qsum a)%Q.
Proof.
  revert r a. induction k as [| k IH]; intros r a Hr Ha.
  - exists r, a. split; [reflexivity |]. split; [assumption | reflexivity].
  - cbn [accumulate8]. exact_ops.
    rewrite <- fmap_take, <- fmap_drop, zip_with_xadd_Fin.
    destruct (IH (zip_with Qplus r (take 8 a)) (drop 8 a)) as (r' & a' & E & Hr' & Hs).
    + rewrite length_zip_with, length_take. lia.
    + rewrite length_drop. lia.
    + exists r', a'. split; [exact E |]. split; [exact Hr' |].
      rewrite Hs, Qsum_zip_with by (rewrite length_take; lia).
      rewrite <- (Qsum_take_drop 8 a). ring.
Qed.

Lemma reduce8_Fin (r : list Q) :
  length r = 8%nat →
  ∃ s, reduce8 (num := xnum) (Fin <$> r) = Fin s ∧ (s == Qsum r)%Q.
Proof.
  intros Hr.
  do 8 (destruct r as [| ? r]; [discriminate |]).
  destruct r; [| discriminate].
  eexists. split; [reflexivity |]. simpl. ring.
Qed.

Lemma unrolled_sum_Fin (l : list Q) :
  (8 ≤ length l)%nat →
  ∃ s, unrolled_sum (num := xnum) (Fin <$> l) = Fin s ∧ (s == Qsum l)%Q.
Proof.
  intros H8. unfold unrolled_sum.
  rewrite length_fmap, <- fmap_take, <- fmap_drop.
  destruct (accumulate8_Fin (length l / 8 - 1) (take 8 l) (drop 8 l))
    as (r' & a' & E & Hr' & Hs).
  - rewrite length_take. lia.
  - rewrite length_drop.
    pose proof (Nat.Div0.mul_div_le (length l) 8). lia.
  - rewrite E.
    destruct (reduce8_Fin r' Hr') as (t & Ht & Hteq). rewrite Ht.
    exact_ops.
    destruct (fold_left_xadd_Fin a' t) as (s & Hsum & Hseq).
    exists s. split; [exact Hsum |].
    rewrite Hseq, Hteq, Hs. apply Qsum_take_drop.
Qed.

(** In exact arithmetic the pairwise sum is the sum. *)
Lemma pairwise_sum_Fin (fuel : nat) (l : list Q) :
  ∃ s, pairwise_sum (num := xnum) fuel (Fin <$> l) = Fin s ∧ (s == Qsum l)%Q.
Proof.
  revert l. induction fuel as [| f IH]; intros l.
  - cbn [pairwise_sum]. rewrite length_fmap.
    destruct (Nat.ltb_spec (length l) 8) as [H8 | H8].
    + destruct l as [| x l]; [exists 0%Q; split; reflexivity |].
      rewrite fmap_cons. exact_ops.
      destruct (fold_left_xadd_Fin l x) as (s & Hs & Heq).
      exists s. split; [exact Hs |]. rewrite Heq. simpl. reflexivity.
    + destruct (length l <=? 128)%nat; now apply unrolled_sum_Fin.
  - cbn [pairwise_sum]. rewrite length_fmap.
    destruct (Nat.ltb_spec (length l) 8) as [H8 | H8].
    + destruct l as [| x l]; [exists 0%Q; split; reflexivity |].
      rewrite fmap_cons. exact_ops.
      destruct (fold_left_xadd_Fin l x) as (s & Hs & Heq).
      exists s. split; [exact Hs |]. rewrite Heq. simpl. reflexivity.
    + destruct (length l <=? 128)%nat; [now apply unrolled_sum_Fin |].
      rewrite <- fmap_take, <- fmap_drop.
      destruct (IH (take (length l / 2 - (length l / 2) mod 8) l))
        as (s1 & H1 & E1).
      destruct (IH (drop (length l / 2 - (length l / 2) mod 8) l))
        as (s2 & H2 & E2).
      rewrite H1, H2. exists (s1 + s2)%Q. split; [reflexivity |].
      rewrite E1, E2. apply Qsum_take_drop.
Qed.

Lemma Qsum_replicate (n : nat) (P : Q) :
  (Qsum (replicate n P) == inject_Z (Z.of_nat n) * P)%Q.
Proof.
  induction n as [| n IH]; [simpl; ring |].
  cbn [replicate Qsum fold_right]. fold (Qsum (replicate n P)).
  rewrite IH, Nat2Z.inj_succ. unfold Z.succ. rewrite inject_Z_plus. ring.
Qed.

(** *** Constant power *)

Section ConstantPower.
Variable P : Q.

(** The running sum over a grid of times, at constant power, telescopes. *)
Lemma cumsum_constant_last (ts : list Q) (t0 a T : Q) :
  last ts = Some T →
  ∃ s,
    last (cumsum_from (Fin a)
            (zip_with mul (replicate (length ts) (Fin P))
                          (np_diff (Fin t0 :: (Fin <$> ts)))))
    = Some (Fin s)
    ∧ (s == a + P * (T - t0))%Q.
Proof.
  revert t0 a. induction ts as [| t ts IH]; intros t0 a HT; [discriminate |].
  rewrite fmap_cons, (np_diff_cons (num := xnum)). cbn [length replicate zip_with].
  rewrite (cumsum_from_cons (num := xnum)), last_cons.
  destruct ts as [| t' ts].
  - injection HT as <-. exists (a + P * (t + - t0))%Q.
    split; [reflexivity | ring].
  - rewrite last_cons_cons in HT.
    destruct (IH t (a + P * (t + - t0))%Q HT) as (s & Hs & Heq).
    exact_ops. simpl xmul. simpl xadd. rewrite Hs.
    exists s. split; [reflexivity |]. rewrite Heq. ring.
Qed.

(** The mean of a constant array. *)
Lemma mean_constant (n : nat) :
  (0 < n)%nat →
  ∃ m, np_mean (replicate n (Fin P)) = Fin m ∧ (m == P)%Q.
Proof.
  intros Hn. unfold np_mean, np_sum. rewrite length_replicate.
  rewrite <- (fmap_replicate Fin n P).
  destruct (pairwise_sum_Fin n (replicate n P)) as (s & Hs & Heq).
  exact_ops. rewrite Hs, xdiv_int by lia.
  eexists. split; [reflexivity |].
  rewrite Heq, Qsum_replicate.
  assert (Hk : (0 < inject_Z (Z.of_nat n))%Q).
  { change 0%Q with (inject_Z 0). rewrite <- Zlt_Qlt. lia. }
  field. lra.
Qed.

End ConstantPower.

(** C4, in exact arithmetic: for a solution with the constant power [P]
    over any grid of times that ends at [T], the harness records the
    discharge energy [P * T / 3600] and the mean power [P]. *)
Theorem constant_power_closed_form {E : Type} (P T : Q) (time : list Q)
  (voltage : list xnum) :
  last time = Some T →
  ∃ energy e m,
    Sweep.aggregate (solver_exn := E)
      (Sweep.Solution (Fin <$> time) (replicate (length time) (Fin P)) voltage)
    = inr (Sweep.Point voltage (Fin <$> time) energy (Fin e) (Fin m))
    ∧ (e == P * T / 3600)%Q
    ∧ (m == P)%Q.
Proof.
  intros HT.
  destruct time as [| t1 ts]; [discriminate |].
  destruct (mean_constant P (length (t1 :: ts))) as (m & Hm & Hmeq);
    [simpl; lia |].
  unfold Sweep.aggregate. cbn [Sweep.sol_time Sweep.sol_power Sweep.sol_voltage].
  rewrite energy_integral_same_length
    by now rewrite length_fmap, length_replicate.
  unfold py_last, scalar_op. rewrite fmap_last, Hm.
  assert (Hlast : ∃ s,
    last (np_cumsum (zip_with mul (replicate (length (t1 :: ts)) (Fin P))
                       (np_diff (np_append0 (Fin <$> t1 :: ts)))))
    = Some (Fin s) ∧ (s == P * T)%Q).
  { unfold np_append0. rewrite fmap_cons, (np_diff_cons (num := xnum)).
    cbn [length replicate zip_with np_cumsum]. rewrite last_cons.
    destruct ts as [| t2 ts].
    - injection HT as <-. exists (P * (t1 + - 0))%Q.
      split; [reflexivity | ring].
    - rewrite last_cons_cons in HT.
      destruct (cumsum_constant_last P (t2 :: ts) t1 (P * (t1 + - 0))%Q T HT)
        as (s & Hs & Heq).
      exact_ops. simpl xmul. change (inject_Z 0) with 0%Q. rewrite Hs.
      exists s. split; [reflexivity |]. rewrite Heq. ring. }
  destruct Hlast as (s & Hs & Heq). rewrite Hs. simpl.
  eexists. exists (s / 3600)%Q, m.
  split; [reflexivity |]. split; [now rewrite Heq | exact Hmeq].
Qed.

Lemma constant_power_closed_form_witness :
  ∃ energy e m,
    Sweep.aggregate (solver_exn := unit)
      (Sweep.Solution (Fin <$> [(1 # 10); (2 # 10); (3 # 10)]%Q)
         (replicate (length [(1 # 10); (2 # 10); (3 # 10)]%Q) (Fin (7 # 10)))
         [])
    = inr (Sweep.Point [] (Fin <$> [(1 # 10); (2 # 10); (3 # 10)]%Q)
             energy (Fin e) (Fin m))
    ∧ (e == (7 # 10) * (3 # 10) / 3600)%Q
    ∧ (m == 7 # 10)%Q.
Proof.
  apply (constant_power_closed_form (7 # 10) (3 # 10)
           [(1 # 10); (2 # 10); (3 # 10)]%Q []).
  reflexivity.
Defined.

(** In binary64 the two equalities fail: with the power 0.7 over the grid
    0.1, 0.2, 0.3 the recorded discharge energy is not [P * T / 3600] and
    the recorded mean power is not [P]. *)
Lemma constant_power_inexact_in_binary64 :
  let P : float := dec 7 10 in
  let T : float := dec 3 10 in
  ∃ p,
    Sweep.aggregate (solver_exn := unit)
      (Sweep.Solution [dec 1 10; dec 2 10; T] [P; P; P] []) = inr p
    ∧ Sweep.pt_discharge_energy p ≠ div (mul P T) (of_Z 3600)
    ∧ Sweep.pt_mean_power p ≠ P.
Proof.
  intros P T. eexists. split; [vm_compute; reflexivity |].
  split; simpl; intros Heq.
  - pose proof (f_equal (λ x, PrimFloat.eqb x (div (mul P T) (of_Z 3600))) Heq)
      as C.
    vm_compute in C. discriminate C.
  - pose proof (f_equal (λ x, PrimFloat.eqb x P) Heq) as C.
    vm_compute in C. discriminate C.
Qed.

(** ** Further properties of the variability notebook *)

(** X1: the statistic of a non-empty array is a percentage: a finite number
    between 0 and 100, whatever the array holds. *)
Theorem exceedance_between_0_and_100 (threshold : xnum) (ratios : list xnum) :
  ratios ≠ [] →
  ∃ p : Q, exceedance threshold ratios = (Fin p, [])
           ∧ (0 <= p)%Q ∧ (p <= 100)%Q.
Proof.
  intros Hne. eexists. split; [apply (exceedance_nonempty _ _ Hne) |].
  assert (Hn : 0 < Z.of_nat (length ratios)).
  { destruct ratios; [contradiction | simpl; lia]. }
  assert (Hc : Z.of_nat (below_count threshold ratios)
               ≤ Z.of_nat (length ratios)).
  { unfold below_count. pose proof (length_filter (λ r, xlt r threshold) ratios).
    lia. }
  split.
  - pose proof (percentage_le 0 (Z.of_nat (below_count threshold ratios))
                  (Z.of_nat (length ratios)) Hn ltac:(lia)) as Hle.
    revert Hle. unfold Qdiv. change (inject_Z 0) with 0%Q.
    rewrite !Qmult_0_l. auto.
  - pose proof (percentage_le (Z.of_nat (below_count threshold ratios))
                  (Z.of_nat (length ratios))
                  (Z.of_nat (length ratios)) Hn Hc) as Hle.
    assert (E : (inject_Z (Z.of_nat (length ratios))
                 / inject_Z (Z.of_nat (length ratios)) * inject_Z 100
                 == 100)%Q).
    { field. change 0%Q with (inject_Z 0). rewrite inject_Z_injective. lia. }
    now rewrite E in Hle.
Qed.

Lemma exceedance_between_0_and_100_witness :
  ∃ p : Q, exceedance (Fin 1) [Fin (9 # 10); NaN; PInf; NInf] = (Fin p, [])
           ∧ (0 <= p)%Q ∧ (p <= 100)%Q.
Proof.
  apply (exceedance_between_0_and_100 (Fin 1) [Fin (9 # 10); NaN; PInf; NInf]).
  discriminate.
Defined.

Lemma scaled_ratio_is_product (f : Q) (a b : xnum) :
  (0 < f)%Q →
  xeq (xdiv (xmul a (Fin f)) b) (xmul (xdiv a b) (Fin f)).
Proof.
  intros Hf.
  assert (Hgt : (f ?= 0)%Q = Gt) by (rewrite <- Qgt_alt; lra).
  assert (Hlt : (0 ?= f)%Q = Lt) by (rewrite <- Qlt_alt; lra).
  destruct a as [a| | |], b as [b| | |]; simpl; rewrite ?Hgt, ?Hlt; simpl;
    try exact I; try ring.
  - destruct (Qeq_bool b 0) eqn:Eb.
    + destruct (a ?= 0)%Q eqn:Ea.
      * apply Qeq_alt in Ea.
        assert (E0 : (a * f ?= 0)%Q = Eq) by (rewrite <- Qeq_alt; rewrite Ea; ring).
        rewrite E0. exact I.
      * apply Qlt_alt in Ea.
        assert (E0 : (a * f ?= 0)%Q = Lt) by (rewrite <- Qlt_alt; nra).
        rewrite E0. simpl. rewrite Hlt. exact I.
      * apply Qgt_alt in Ea.
        assert (E0 : (a * f ?= 0)%Q = Gt) by (rewrite <- Qgt_alt; nra).
        rewrite E0. simpl. rewrite Hgt. exact I.
    + simpl. apply Qeq_bool_neq in Eb. field. exact Eb.
  - destruct (b ?= 0)%Q; simpl; rewrite ?Hgt, ?Hlt; exact I.
  - destruct (b ?= 0)%Q; simpl; rewrite ?Hgt, ?Hlt; exact I.
Qed.

(** X2: the second scenario multiplies the NPR of every cell by the factor:
    [neg * f / pos] is, cell by cell, [f] times [neg / pos], for a
    positive factor and whatever the arrays hold. *)
Theorem anode_factor_scales_every_ratio (neg pos r r' : list xnum) (f : Q) :
  (0 < f)%Q →
  broadcast div neg pos = Some r →
  broadcast div (scalar_op mul neg (Fin f)) pos = Some r' →
  Forall2 (λ u' u, xeq u' (xmul u (Fin f))) r' r.
Proof.
  intros Hf Hr Hr'. unfold scalar_op in Hr'. exact_ops.
  eapply (broadcast_related _ xdiv (λ x, xmul x (Fin f))); eauto.
  intros x y. now apply scaled_ratio_is_product.
Qed.

Lemma anode_factor_scales_every_ratio_witness :
  Forall2 (λ u' u, xeq u' (xmul u (Fin (21 # 20))))
    [Fin ((9 # 10) * (21 # 20) / 1); Fin (2 * (21 # 20) / 1)]
    [Fin ((9 # 10) / 1); Fin (2 / 1)].
Proof.
  apply (anode_factor_scales_every_ratio
           [Fin (9 # 10); Fin 2] [Fin 1; Fin 1] _ _ (21 # 20));
    reflexivity.
Defined.

Lemma over_1000 (x : Q) : (x / inject_Z 1000 == x * (1 # 1000))%Q.
Proof. reflexivity. Qed.

Lemma unit_scale_cancels (n p qn qp : Q) :
  xeq (xdiv (xdiv (xmul (Fin n) (Fin qn)) (Fin (inject_Z 1000)))
            (xdiv (xmul (Fin p) (Fin qp)) (Fin (inject_Z 1000))))
      (xdiv (Fin (n * qn)) (Fin (p * qp))).
Proof.
  simpl. set (x := (n * qn)%Q). set (y := (p * qp)%Q).
  assert (Hsign : (x / inject_Z 1000 ?= 0)%Q = (x ?= 0)%Q).
  { destruct (x ?= 0)%Q eqn:Ex.
    - apply Qeq_alt in Ex. rewrite <- Qeq_alt, over_1000. lra.
    - apply Qlt_alt in Ex. rewrite <- Qlt_alt, over_1000. lra.
    - apply Qgt_alt in Ex. rewrite <- Qgt_alt, over_1000. lra. }
  destruct (Qeq_bool y 0) eqn:E0.
  - apply Qeq_bool_eq in E0.
    assert (E1 : Qeq_bool (y / inject_Z 1000) 0 = true).
    { apply Qeq_bool_iff. rewrite over_1000. lra. }
    rewrite E1, Hsign. destruct (x ?= 0)%Q; exact I.
  - apply Qeq_bool_neq in E0.
    assert (E1 : Qeq_bool (y / inject_Z 1000) 0 = false).
    { destruct (Qeq_bool (y / inject_Z 1000) 0) eqn:E; [| reflexivity].
      apply Qeq_bool_eq in E. rewrite over_1000 in E. exfalso. apply E0. lra. }
    rewrite E1. simpl. field. exact E0.
Qed.

(** X3: the conversion from mAh per gram to mAh per milligram cancels in the
    ratio: the NPR of a cell is the negative loading times its specific
    capacity over the positive loading times its own, also when the
    positive loading is zero. *)
Theorem npr_is_free_of_the_unit_scale (neg_loading pos_loading : list Q)
  (neg_qsp pos_qsp : Q) (ratio : list xnum) :
  length neg_loading = length pos_loading →
  broadcast div (NPR.areal_capacity (Fin <$> neg_loading) (Fin neg_qsp))
                (NPR.areal_capacity (Fin <$> pos_loading) (Fin pos_qsp))
  = Some ratio →
  Forall2 xeq ratio
    (zip_with (λ n p, xdiv (Fin (n * neg_qsp)) (Fin (p * pos_qsp)))
              neg_loading pos_loading).
Proof.
  intros Hlen. unfold NPR.areal_capacity, scalar_op.
  rewrite broadcast_same_length by now rewrite !length_fmap.
  intros [= <-]. exact_ops.
  revert pos_loading Hlen.
  induction neg_loading as [| n ns IH]; intros [| p ps] Hlen;
    try discriminate; [constructor |].
  rewrite !fmap_cons. cbn [zip_with]. constructor.
  - apply unit_scale_cancels.
  - apply IH. simpl in Hlen. lia.
Qed.

Lemma npr_is_free_of_the_unit_scale_witness :
  ∃ ratio,
    broadcast div (NPR.areal_capacity (Fin <$> [15; 14]%Q) (Fin 372))
                  (NPR.areal_capacity (Fin <$> [25; 0]%Q) (Fin 224))
    = Some ratio
    ∧ Forall2 xeq ratio
        (zip_with (λ n p, xdiv (Fin (n * 372)) (Fin (p * 224)))
                  [15; 14]%Q [25; 0]%Q).
Proof.
  eexists. split; [reflexivity |].
  apply (npr_is_free_of_the_unit_scale [15; 14]%Q [25; 0]%Q 372 224);
    reflexivity.
Defined.

Section BroadcastShapes.
Context {num : Type} `{Arith num}.

(** When two shapes cannot be broadcast together. *)
Lemma broadcast_None (op : num → num → num) (a b : list num) :
  broadcast op a b = None
  ↔ length a ≠ length b ∧ length a ≠ 1%nat ∧ length b ≠ 1%nat.
Proof.
  unfold broadcast. destruct (Nat.eqb_spec (length a) (length b)) as [E | E].
  - split; [discriminate | tauto].
  - destruct a as [| x [| x' a]], b as [| y [| y' b]]; simpl in *;
      split; try discriminate; try tauto; try (intros (? & ? & ?); lia);
      intros _; repeat split; lia.
Qed.

Lemma broadcast_length (op : num → num → num) (a b r : list num) :
  broadcast op a b = Some r →
  (length a = length b → length r = length a)
  ∧ (length a = 1%nat → length r = length b)
  ∧ (length b = 1%nat → length r = length a).
Proof.
  unfold broadcast. destruct (Nat.eqb_spec (length a) (length b)) as [E | E].
  - intros [= <-]. rewrite length_zip_with. repeat split; lia.
  - destruct a as [| x [| x' a]], b as [| y [| y' b]]; simpl in *;
      try discriminate; intros [= <-]; simpl; rewrite ?length_fmap;
      repeat split; lia.
Qed.

End BroadcastShapes.

Section NotebookRuns.
Context {num : Type} `{Arith num} {G : Type}.
Variable seed : Z → G.
Variable normal : num → num → nat → G → list num * G.

Lemma plt_plot_None (x y : list num) :
  NPR.plt_plot x y = None ↔ length x ≠ length y.
Proof.
  unfold NPR.plt_plot. destruct (Nat.eqb_spec (length x) (length y)).
  - split; [discriminate | tauto].
  - tauto.
Qed.

Lemma cell_base_case_None (k : @NPR.kernel num G) :
  NPR.cell_base_case k = None
  ↔ NPR.pos_areal_capacity k = []
    ∨ (length (NPR.neg_areal_capacity k) ≠ length (NPR.pos_areal_capacity k)
       ∧ length (NPR.neg_areal_capacity k) ≠ 1%nat
       ∧ length (NPR.pos_areal_capacity k) ≠ 1%nat).
Proof.
  unfold NPR.cell_base_case.
  destruct (NPR.pos_areal_capacity k) as [| p ps] eqn:Ep.
  - simpl. tauto.
  - cbn [reduction_defined mbind option_bind].
    destruct (broadcast div _ _) as [r |] eqn:Eb; cbn [mbind option_bind].
    + split; [discriminate |]. intros [? | Hshape]; [discriminate |].
      apply (proj2 (broadcast_None div _ _)) in Hshape. congruence.
    + apply broadcast_None in Eb. tauto.
Qed.

Lemma cell_anode_loading_None (k : @NPR.kernel num G) :
  NPR.cell_anode_loading k = None ↔ NPR.cell_base_case k = None.
Proof.
  rewrite cell_base_case_None.
  unfold NPR.cell_anode_loading.
  destruct (NPR.pos_areal_capacity k) as [| p ps] eqn:Ep.
  - simpl. tauto.
  - cbn [reduction_defined mbind option_bind].
    destruct (broadcast div _ _) as [r |] eqn:Eb; cbn [mbind option_bind].
    + split; [discriminate |]. intros [? | Hshape]; [discriminate |].
      exfalso.
      assert (Hn : broadcast div
                     (scalar_op mul (NPR.neg_areal_capacity k) (dec 105 100))
                     (p :: ps) = None).
      { apply broadcast_None. unfold scalar_op. now rewrite length_fmap. }
      congruence.
    + apply broadcast_None in Eb. unfold scalar_op in Eb.
      rewrite length_fmap in Eb. tauto.
Qed.

(** X4: the statements of a scenario cell up to [percent_more] raise in two
    cases only: the positive capacities are empty, which stops [np.min],
    or the two arrays have different lengths of which neither is 1, which
    stops the division. The division broadcasts an array of one element,
    the scatter plot that follows does not: up to and including
    [plt.plot(pos_areal_capacity, neg_areal_capacity, ...)] the cell
    raises exactly when the positive capacities are empty or the two
    arrays differ in length. The anode-loading cell raises in the same
    kernel states as the base case, both before and with its plots. *)
Theorem scenario_cells_raise (k : @NPR.kernel num G) :
  (NPR.cell_base_case k = None
   ↔ NPR.pos_areal_capacity k = []
     ∨ (length (NPR.neg_areal_capacity k) ≠ length (NPR.pos_areal_capacity k)
        ∧ length (NPR.neg_areal_capacity k) ≠ 1%nat
        ∧ length (NPR.pos_areal_capacity k) ≠ 1%nat))
  ∧ (NPR.cell_anode_loading k = None ↔ NPR.cell_base_case k = None)
  ∧ (NPR.cell_base_case_scatter k = None
     ↔ NPR.pos_areal_capacity k = []
       ∨ length (NPR.neg_areal_capacity k)
         ≠ length (NPR.pos_areal_capacity k))
  ∧ (NPR.cell_anode_loading_scatter k = None
     ↔ NPR.cell_base_case_scatter k = None).
Proof.
  assert (Hscatter : NPR.cell_base_case_scatter k = None
     ↔ NPR.pos_areal_capacity k = []
       ∨ length (NPR.neg_areal_capacity k)
         ≠ length (NPR.pos_areal_capacity k)).
  { unfold NPR.cell_base_case_scatter.
    destruct (NPR.cell_base_case k) as [k' |] eqn:Ek;
      cbn [mbind option_bind].
    - destruct (cell_base_case_frame _ _ Ek) as (_ & _ & Hp & Hn & _).
      rewrite Hp, Hn.
      assert (Hne : NPR.pos_areal_capacity k ≠ []).
      { intros E. apply (cell_base_case_no_sample k) in E. congruence. }
      destruct (NPR.plt_plot _ _) eqn:Eplot; cbn [mbind option_bind].
      + split; [discriminate |]. intros [? | Hlen]; [contradiction |].
        assert (Hnone : NPR.plt_plot (NPR.pos_areal_capacity k)
                          (NPR.neg_areal_capacity k) = None)
          by (apply plt_plot_None; congruence).
        congruence.
      + apply plt_plot_None in Eplot. split; [| reflexivity].
        intros _. right. congruence.
    - split; [| reflexivity]. intros _.
      apply cell_base_case_None in Ek. tauto. }
  split; [apply cell_base_case_None |].
  split; [apply cell_anode_loading_None |].
  split; [exact Hscatter |].
  rewrite Hscatter. unfold NPR.cell_anode_loading_scatter.
  destruct (NPR.cell_anode_loading k) as [k' |] eqn:Ek;
    cbn [mbind option_bind].
  - destruct (cell_anode_loading_frame _ _ Ek) as (_ & _ & Hp & Hn & _).
    rewrite Hp, Hn.
    assert (Hne : NPR.pos_areal_capacity k ≠ []).
    { intros E. apply (cell_base_case_no_sample k) in E.
      apply cell_anode_loading_None in E. congruence. }
    destruct (NPR.plt_plot (NPR.pos_areal_capacity k) (NPR.neg_areal_capacity k))
      eqn:Eplot; cbn [mbind option_bind].
    + assert (Elen : length (NPR.pos_areal_capacity k)
                     = length (NPR.neg_areal_capacity k)).
      { destruct (decide (length (NPR.pos_areal_capacity k)
                          = length (NPR.neg_areal_capacity k))) as [E | E];
          [exact E |].
        apply plt_plot_None in E. congruence. }
      assert (Eplot2 : NPR.plt_plot (NPR.pos_areal_capacity k)
                (scalar_op mul (NPR.neg_areal_capacity k)
                   (NPR.ANODE_LOADING_INCREASE_FACTOR k')) = Some ()).
      { unfold NPR.plt_plot, scalar_op.
        now rewrite length_fmap, Elen, Nat.eqb_refl. }
      rewrite Eplot2. cbn [mbind option_bind].
      split; [discriminate |]. intros [? | Hlen]; [contradiction |].
      congruence.
    + apply plt_plot_None in Eplot. split; [| reflexivity].
      intros _. right. congruence.
  - split; [| reflexivity]. intros _.
    apply cell_anode_loading_None, cell_base_case_None in Ek. tauto.
Qed.

Lemma base_case_percent (k0 k' : @NPR.kernel num G) :
  NPR.cell_base_case k0 = Some k' →
  NPR.percent_more k' = fst (exceedance (of_Z 1) (NPR.npr_actual k')).
Proof.
  unfold NPR.cell_base_case.
  destruct (reduction_defined _); [| discriminate].
  cbn [mbind option_bind].
  destruct (broadcast div _ _) as [ratio |]; [| discriminate].
  cbn [mbind option_bind]. intros Heq. injection Heq as Heq. subst k'.
  destruct (assign_npr_frame k0 ratio (NPR.ANODE_LOADING_INCREASE_FACTOR k0)
              (NPR.pos_areal_capacity_new k0)) as (_ & _ & _ & _ & Hr & Hq).
  now rewrite Hq, Hr.
Qed.

(** X5: re-running the base case after the second scenario and after the new
    draw of the positive loading gives the ratios and the percentage of
    the first run again, up to the warnings already printed. *)
Theorem base_case_can_be_rerun (k k1 k2 k3 : @NPR.kernel num G) :
  NPR.cell_base_case k = Some k1 →
  NPR.cell_anode_loading k1 = Some k2 →
  NPR.cell_base_case (NPR.cell_pos_cv normal k2) = Some k3 →
  NPR.npr_actual k3 = NPR.npr_actual k1
  ∧ NPR.percent_more k3 = NPR.percent_more k1.
Proof.
  intros H1 H2 H3.
  destruct (cell_base_case_frame _ _ H1) as (_ & _ & Hp1 & Hn1 & Hr1).
  destruct (cell_anode_loading_frame _ _ H2) as (_ & _ & Hp2 & Hn2 & _).
  destruct (cell_pos_cv_draws normal k2) as (_ & _ & Hp3).
  assert (Hn3 : NPR.neg_areal_capacity (NPR.cell_pos_cv normal k2)
                = NPR.neg_areal_capacity k2).
  { unfold NPR.cell_pos_cv. now destruct (normal _ _ _ _). }
  destruct (cell_base_case_frame _ _ H3) as (_ & _ & _ & _ & Hr3).
  rewrite Hn3, Hp3, Hn2, Hp2, Hn1, Hp1, Hr1 in Hr3.
  injection Hr3 as Hr3.
  split; [now symmetry |].
  rewrite (base_case_percent _ _ H3), (base_case_percent _ _ H1).
  now rewrite <- Hr3.
Qed.

Hypothesis normal_length :
  ∀ loc scale size g, length (fst (normal loc scale size g)) = size.

(** X6: "Run All" with a generator that returns as many samples as it is asked
    for: no cell raises; the generator is seeded and then drawn from three
    times, for the negative loading, the positive loading and the positive
    loading at the lower CV, so the result does not depend on the state
    the generator was in; the last ratio pairs the first draw, times 1.05,
    with the third. *)
Theorem run_all_three_draws (g : G) :
  let mu_n : num := dec 1485 100 in
  let mu_p : num := dec 2469 100 in
  let d1 := normal mu_n (mul mu_n (dec 2 100)) 10000 (seed 42) in
  let d2 := normal mu_p (mul mu_p (dec 3 100)) 10000 (snd d1) in
  let d3 := normal mu_p (mul mu_p (dec 15 1000)) 10000 (snd d2) in
  let neg := NPR.areal_capacity (fst d1) (of_Z 372) in
  let pos := NPR.areal_capacity (fst d2) (of_Z 224) in
  let pos_new := NPR.areal_capacity (fst d3) (of_Z 224) in
  let ratio := zip_with div (scalar_op mul neg (dec 105 100)) pos_new in
  ∃ k, NPR.run_all seed normal g = Some k
       ∧ NPR.rng k = snd d3
       ∧ NPR.neg_areal_capacity k = neg
       ∧ NPR.pos_areal_capacity k = pos
       ∧ NPR.pos_areal_capacity_new k = pos_new
       ∧ NPR.npr_actual k = ratio
       ∧ NPR.percent_more k = fst (exceedance (of_Z 1) ratio).
Proof using normal_length.
  intros mu_n mu_p d1 d2 d3 neg pos pos_new ratio.
  assert (L1 : length neg = 10000%nat).
  { unfold neg, NPR.areal_capacity, scalar_op. rewrite !length_fmap.
    apply normal_length. }
  assert (L2 : length pos = 10000%nat).
  { unfold pos, NPR.areal_capacity, scalar_op. rewrite !length_fmap.
    apply normal_length. }
  assert (L3 : length pos_new = 10000%nat).
  { unfold pos_new, NPR.areal_capacity, scalar_op. rewrite !length_fmap.
    apply normal_length. }
  assert (Hs : NPR.rng (NPR.sampled seed normal g) = snd d2
               ∧ NPR.neg_areal_capacity (NPR.sampled seed normal g) = neg
               ∧ NPR.pos_areal_capacity (NPR.sampled seed normal g) = pos
               ∧ NPR.POS_LOADING_MEAN (NPR.sampled seed normal g) = mu_p
               ∧ NPR.POS_QSP (NPR.sampled seed normal g) = of_Z 224).
  { subst ratio pos_new neg pos d3 d2 d1 mu_n mu_p.
    unfold NPR.sampled, NPR.cell_monte_carlo.
    cbn -[mul dec of_Z NPR.areal_capacity].
    destruct (normal _ _ _ (seed 42)) as [l1 g1]. cbn [fst snd].
    destruct (normal _ _ _ g1) as [l2 g2]. cbn. auto. }
  destruct Hs as (Hg & Hn & Hp & Hmu & Hq).
  unfold NPR.run_all.
  destruct (scenarios_run seed normal normal_length g)
    as (k1 & k2 & H1 & H2).
  rewrite H1. cbn [mbind option_bind]. rewrite H2. cbn [mbind option_bind].
  destruct (cell_base_case_frame _ _ H1) as (Hg1 & _ & Hp1 & Hn1 & _).
  destruct (cell_anode_loading_frame _ _ H2) as (Hg2 & _ & Hp2 & Hn2 & _).
  assert (Hf2 : NPR.ANODE_LOADING_INCREASE_FACTOR k2 = dec 105 100
                ∧ NPR.POS_LOADING_MEAN k2 = mu_p ∧ NPR.POS_QSP k2 = of_Z 224).
  { revert H1 H2. unfold NPR.cell_base_case, NPR.cell_anode_loading.
    destruct (reduction_defined _); [| discriminate].
    cbn [mbind option_bind].
    destruct (broadcast div _ _) as [r1 |]; [| discriminate].
    simpl. intros [= <-].
    destruct (reduction_defined _); [| discriminate].
    cbn [mbind option_bind].
    destruct (broadcast div _ _) as [r2 |]; [| discriminate].
    simpl. intros [= <-]. unfold NPR.assign_npr.
    destruct (exceedance (of_Z 1) r1). destruct (exceedance (of_Z 1) r2).
    simpl. rewrite <- Hmu, <- Hq. auto. }
  destruct Hf2 as (Hf & Hmu2 & Hq2).
  set (k3 := NPR.cell_pos_cv normal k2).
  assert (H3 : NPR.rng k3 = snd d3
               ∧ NPR.neg_areal_capacity k3 = neg
               ∧ NPR.pos_areal_capacity k3 = pos
               ∧ NPR.pos_areal_capacity_new k3 = pos_new
               ∧ NPR.ANODE_LOADING_INCREASE_FACTOR k3 = dec 105 100).
  { unfold k3, NPR.cell_pos_cv. cbv zeta. rewrite Hmu2, Hq2, Hg2, Hg1, Hg.
    rewrite Hn2, Hn1, Hn, Hp2, Hp1, Hp, Hf.
    subst ratio pos_new d3.
    destruct (normal _ _ _ (snd d2)) as [l3 g3]. cbn. auto. }
  destruct H3 as (Hg3 & Hn3 & Hp3 & Hpn3 & Hf3).
  unfold NPR.cell_pos_variability.
  rewrite Hpn3, Hp3, Hn3, Hf3.
  rewrite (ten_thousand_defined _ L3), (ten_thousand_defined _ L2).
  cbn [mbind option_bind].
  rewrite broadcast_same_length
    by (unfold scalar_op; rewrite length_fmap; congruence).
  cbn [mbind option_bind]. fold ratio.
  eexists. split; [reflexivity |].
  destruct (assign_npr_frame k3 ratio (dec 105 100) pos_new)
    as (A1 & _ & A3 & A4 & A5 & A6).
  assert (A7 : NPR.pos_areal_capacity_new
                 (NPR.assign_npr k3 ratio (dec 105 100) pos_new) = pos_new).
  { unfold NPR.assign_npr. now destruct (exceedance (of_Z 1) ratio). }
  rewrite A1, A3, A4, A5, A6, A7. repeat split; auto.
Qed.

Lemma plt_plot_same_length (x y : list num) :
  length x = length y → NPR.plt_plot x y = Some ().
Proof. intros E. unfold NPR.plt_plot. now rewrite E, Nat.eqb_refl. Qed.

(** After the new draw the last cell finds three arrays of 10000
    elements. *)
Lemma pos_variability_runs (k2 : @NPR.kernel num G) :
  length (NPR.neg_areal_capacity k2) = 10000%nat →
  length (NPR.pos_areal_capacity k2) = 10000%nat →
  ∃ k, NPR.cell_pos_variability (NPR.cell_pos_cv normal k2) = Some k
       ∧ length (NPR.neg_areal_capacity k) = 10000%nat
       ∧ length (NPR.pos_areal_capacity k) = 10000%nat
       ∧ length (NPR.pos_areal_capacity_new k) = 10000%nat.
Proof using normal_length.
  intros Ln Lp.
  set (k3 := NPR.cell_pos_cv normal k2).
  assert (Hn3 : NPR.neg_areal_capacity k3 = NPR.neg_areal_capacity k2).
  { unfold k3, NPR.cell_pos_cv. now destruct (normal _ _ _ _). }
  destruct (cell_pos_cv_draws normal k2) as (Hd & Hnew & Hkeep).
  fold k3 in Hd, Hnew, Hkeep.
  assert (Lnew : length (NPR.pos_areal_capacity_new k3) = 10000%nat).
  { rewrite Hnew. unfold NPR.areal_capacity, scalar_op. rewrite !length_fmap.
    change (NPR.pos_loading k3) with (fst (NPR.pos_loading k3, NPR.rng k3)).
    rewrite Hd. apply normal_length. }
  unfold NPR.cell_pos_variability.
  rewrite (ten_thousand_defined _ Lnew).
  rewrite (ten_thousand_defined (NPR.pos_areal_capacity k3))
    by congruence.
  cbn [mbind option_bind].
  rewrite broadcast_same_length
    by (unfold scalar_op; rewrite length_fmap; congruence).
  cbn [mbind option_bind].
  eexists. split; [reflexivity |].
  match goal with
  | |- context [NPR.assign_npr k3 ?ratio ?factor ?pos_new] =>
      destruct (assign_npr_frame k3 ratio factor pos_new)
        as (_ & _ & A3 & A4 & _);
      assert (A7 : NPR.pos_areal_capacity_new
                     (NPR.assign_npr k3 ratio factor pos_new) = pos_new)
        by (unfold NPR.assign_npr; now destruct (exceedance (of_Z 1) ratio))
  end.
  rewrite A3, A4, A7. repeat split; congruence.
Qed.

(** X16: in such a run the scatter plots raise nothing either: every array
    they are given has the 10000 elements of its draw, so each scenario
    cell gets through its [plt.plot] calls on the sampled capacities and
    the notebook ends in the same state. *)
Theorem run_all_gets_through_the_scatter_plots (g : G) :
  ∃ k, NPR.run_all seed normal g = Some k
       ∧ NPR.run_all_scatter seed normal g = Some k.
Proof using normal_length.
  unfold NPR.run_all, NPR.run_all_scatter.
  destruct (scenarios_run seed normal normal_length g)
    as (k1 & k2 & H1 & H2).
  rewrite H1. cbn [mbind option_bind]. rewrite H2. cbn [mbind option_bind].
  destruct (sampled_lengths seed normal normal_length g) as [Ln Lp].
  destruct (cell_base_case_frame _ _ H1) as (_ & _ & Hp1 & Hn1 & _).
  destruct (cell_anode_loading_frame _ _ H2) as (_ & _ & Hp2 & Hn2 & _).
  assert (E1 : length (NPR.pos_areal_capacity k1)
               = length (NPR.neg_areal_capacity k1)) by congruence.
  assert (E2 : length (NPR.pos_areal_capacity k2)
               = length (NPR.neg_areal_capacity k2)) by congruence.
  destruct (pos_variability_runs k2) as (k & H3 & Lkn & Lkp & Lkpn);
    [congruence | congruence |].
  exists k. split; [exact H3 |].
  unfold NPR.cell_base_case_scatter. rewrite H1. cbn [mbind option_bind].
  rewrite (plt_plot_same_length _ _ E1). cbn [mbind option_bind].
  unfold NPR.cell_anode_loading_scatter. rewrite H2. cbn [mbind option_bind].
  rewrite (plt_plot_same_length _ _ E2). cbn [mbind option_bind].
  rewrite (plt_plot_same_length (NPR.pos_areal_capacity k2)
             (scalar_op mul (NPR.neg_areal_capacity k2)
                (NPR.ANODE_LOADING_INCREASE_FACTOR k2)))
    by (unfold scalar_op; rewrite length_fmap; exact E2).
  cbn [mbind option_bind].
  unfold NPR.cell_pos_variability_scatter. rewrite H3.
  cbn [mbind option_bind].
  rewrite (plt_plot_same_length (NPR.pos_areal_capacity k)
             (NPR.neg_areal_capacity k)) by congruence.
  cbn [mbind option_bind].
  rewrite (plt_plot_same_length (NPR.pos_areal_capacity_new k)
             (scalar_op mul (NPR.neg_areal_capacity k)
                (NPR.ANODE_LOADING_INCREASE_FACTOR k)))
    by (unfold scalar_op; rewrite length_fmap; congruence).
  reflexivity.
Qed.

End NotebookRuns.

Lemma base_case_can_be_rerun_witness :
  ∃ k1 k2 k3 : @NPR.kernel xnum nat,
    NPR.cell_base_case three_samples = Some k1
    ∧ NPR.cell_anode_loading k1 = Some k2
    ∧ NPR.cell_base_case (NPR.cell_pos_cv NPR.toy_normal k2) = Some k3
    ∧ NPR.npr_actual k3 = NPR.npr_actual k1
    ∧ NPR.percent_more k3 = NPR.percent_more k1.
Proof.
  eexists. eexists. eexists.
  split; [reflexivity |]. split; [reflexivity |]. split; [reflexivity |].
  eapply (base_case_can_be_rerun NPR.toy_normal three_samples); reflexivity.
Defined.

Lemma run_all_three_draws_witness :
  ∃ k : @NPR.kernel xnum nat,
    NPR.run_all NPR.toy_seed NPR.toy_normal 0%nat = Some k
    ∧ NPR.rng k
      = snd (NPR.toy_normal (dec 2469 100) (mul (dec 2469 100) (dec 15 1000))
               10000
               (snd (NPR.toy_normal (dec 2469 100)
                       (mul (dec 2469 100) (dec 3 100)) 10000
                       (snd (NPR.toy_normal (dec 1485 100)
                               (mul (dec 1485 100) (dec 2 100)) 10000
                               (NPR.toy_seed 42)))))).
Proof.
  destruct (run_all_three_draws (num := xnum) NPR.toy_seed NPR.toy_normal
              toy_normal_length 0%nat) as (k & Hrun & Hrng & _).
  exists k. split; [exact Hrun | exact Hrng].
Defined.

Lemma run_all_gets_through_the_scatter_plots_witness :
  ∃ k : @NPR.kernel xnum nat,
    NPR.run_all NPR.toy_seed NPR.toy_normal 0%nat = Some k
    ∧ NPR.run_all_scatter NPR.toy_seed NPR.toy_normal 0%nat = Some k.
Proof.
  exact (run_all_gets_through_the_scatter_plots (num := xnum)
           NPR.toy_seed NPR.toy_normal toy_normal_length 0%nat).
Defined.

(** ** Further properties of the sweep *)

Section SweepOutcomes.
Context {num : Type} `{Arith num} {parameters solver_exn : Type}.
Variable solve :
  parameters → list (Sweep.instruction num) → solver_exn + Sweep.solution num.

Lemma energy_integral_None (time power : list num) :
  Sweep.energy_integral time power = None
  ↔ length power ≠ length time
    ∧ length power ≠ 1%nat ∧ length time ≠ 1%nat.
Proof.
  unfold Sweep.energy_integral, np_append0.
  destruct (broadcast mul power _) as [steps |] eqn:E.
  - cbn [mbind option_bind]. split; [discriminate |]. intros Hs.
    assert (Hn : broadcast mul power (np_diff (of_Z 0 :: time)) = None).
    { apply broadcast_None. now rewrite np_diff_length. }
    congruence.
  - apply broadcast_None in E. rewrite np_diff_length in E.
    cbn [mbind option_bind]. tauto.
Qed.

Lemma energy_integral_length (time power energy : list num) :
  Sweep.energy_integral time power = Some energy →
  (length power = length time → length energy = length time)
  ∧ (length power = 1%nat → length energy = length time)
  ∧ (length time = 1%nat → length energy = length power).
Proof.
  unfold Sweep.energy_integral, np_append0.
  destruct (broadcast mul power _) as [steps |] eqn:E; [| discriminate].
  cbn [mbind option_bind]. intros [= <-].
  unfold scalar_op. rewrite length_fmap, np_cumsum_length.
  apply broadcast_length in E. rewrite np_diff_length in E.
  destruct E as (E1 & E2 & E3). repeat split; intros; auto.
  rewrite E1; auto.
Qed.

(** X7: what the aggregation of one solution can do. It raises a [ValueError]
    exactly when the power and the time have different lengths of which
    neither is 1, an [IndexError] exactly when the shapes fit and the
    energy comes out empty, and never anything else; the voltage is not
    looked at. When it returns, the time and the voltage are passed on as
    they are, the energy has the longer of the two lengths, and the
    discharge energy is its last element. *)
Theorem aggregate_outcome (sol : Sweep.solution num) :
  let m := length (Sweep.sol_power sol) in
  let n := length (Sweep.sol_time sol) in
  (Sweep.aggregate (solver_exn := solver_exn) sol = inl ValueError
   ↔ m ≠ n ∧ m ≠ 1%nat ∧ n ≠ 1%nat)
  ∧ (Sweep.aggregate (solver_exn := solver_exn) sol = inl IndexError
     ↔ (m = 0%nat ∧ (n ≤ 1)%nat) ∨ (n = 0%nat ∧ (m ≤ 1)%nat))
  ∧ (∀ e, Sweep.aggregate (solver_exn := solver_exn) sol
          ≠ inl (SolverError e))
  ∧ (∀ p, Sweep.aggregate (solver_exn := solver_exn) sol = inr p →
          Sweep.pt_time p = Sweep.sol_time sol
          ∧ Sweep.pt_voltage p = Sweep.sol_voltage sol
          ∧ Sweep.pt_mean_power p = np_mean (Sweep.sol_power sol)
          ∧ last (Sweep.pt_energy p) = Some (Sweep.pt_discharge_energy p)
          ∧ length (Sweep.pt_energy p) = (m `max` n)%nat).
Proof.
  intros m n. unfold Sweep.aggregate. cbv zeta.
  destruct (Sweep.energy_integral _ _) as [energy |] eqn:E.
  - pose proof (energy_integral_length _ _ _ E) as (L1 & L2 & L3).
    assert (Hfit : ¬ (m ≠ n ∧ m ≠ 1%nat ∧ n ≠ 1%nat)).
    { intros Hs. apply energy_integral_None in Hs. congruence. }
    fold m n in L1, L2, L3. unfold py_last.
    destruct (last energy) as [d |] eqn:Hlast.
    + assert (Hne : length energy ≠ 0%nat).
      { intros Hz. apply length_zero_iff_nil in Hz. subst energy.
        discriminate. }
      split; [split; [discriminate | tauto] |].
      split; [split; [discriminate | lia] |].
      split; [discriminate |].
      intros p [= <-]. simpl. repeat split; auto. lia.
    + apply last_None in Hlast. subst energy. simpl in L1, L2, L3.
      split; [split; [discriminate | tauto] |].
      split; [split; [lia | reflexivity] |].
      split; [discriminate |]. discriminate.
  - pose proof (proj1 (energy_integral_None _ _) E) as Hs. fold m n in Hs.
    split; [split; [auto | reflexivity] |].
    split; [split; [discriminate | lia] |].
    split; [discriminate |]. discriminate.
Qed.

Lemma sweep_loop_traversal (pv : parameters) (C_rates rates : list num)
  (done : list (Sweep.point num))
  (log : list (list (Sweep.instruction num))) :
  Sweep.sweep_loop solve pv rates (Sweep.outputs_of C_rates done) log
  = (match collect solve pv rates with
     | inl e => inl e
     | inr ps => inr (Sweep.outputs_of C_rates (done ++ ps))
     end,
     log ++ (Sweep.experiment_of <$> attempted solve pv rates)).
Proof.
  revert done log. induction rates as [| r rates IH]; intros done log.
  - simpl. now rewrite !app_nil_r.
  - rewrite sweep_loop_cons, sweep_step_eq. cbn [collect attempted].
    destruct (Sweep.point_of solve pv r) as [e | p].
    + reflexivity.
    + rewrite record_point_outputs_of, IH. rewrite fmap_cons.
      destruct (collect solve pv rates) as [e | ps];
        now rewrite <- !app_assoc.
Qed.

(** X8: the loop with its dictionary and its solver log is a traversal of
    the rates: it always returns; the result is the first exception among
    the points, of the solver or of the aggregation, or else the
    dictionary of all the points; and the solver has been called for the
    rates up to the first that raises, in their order, once each. *)
Theorem sweep_is_a_traversal (C_rates : list num) (pv : parameters)
  (log : list (list (Sweep.instruction num))) :
  Sweep.sweep_c_rate solve C_rates pv log
  = (match collect solve pv C_rates with
     | inl e => inl e
     | inr ps => inr (Sweep.outputs_of C_rates ps)
     end,
     log ++ (Sweep.experiment_of <$> attempted solve pv C_rates)).
Proof.
  unfold Sweep.sweep_c_rate. rewrite new_outputs_of.
  apply (sweep_loop_traversal pv C_rates C_rates []).
Qed.


End SweepOutcomes.


Lemma xadd_proper (a a' b b' : xnum) :
  xeq a a' → xeq b b' → xeq (xadd a b) (xadd a' b').
Proof.
  destruct a, a', b, b'; simpl; try tauto. intros Ha Hb. now rewrite Ha, Hb.
Qed.

Lemma xdiv_3600_proper (a a' : xnum) :
  xeq a a' → xeq (xdiv a (Fin 3600)) (xdiv a' (Fin 3600)).
Proof. destruct a, a'; simpl; try tauto. intros Ha. now rewrite Ha. Qed.

Lemma Forall2_xeq_refl (l : list xnum) : Forall2 xeq l l.
Proof. induction l; constructor; auto using xeq_refl. Qed.

Lemma cumsum_from_proper (a a' : xnum) (l l' : list xnum) :
  xeq a a' → Forall2 xeq l l' →
  Forall2 xeq (cumsum_from a l) (cumsum_from a' l').
Proof.
  intros Ha Hl. revert a a' Ha.
  induction Hl as [| x x' l l' Hx Hl IH]; intros a a' Ha; [constructor |].
  rewrite !(cumsum_from_cons (num := xnum)).
  assert (Hs : xeq (xadd a x) (xadd a' x')) by now apply xadd_proper.
  constructor; [exact Hs | now apply IH].
Qed.

(** X10: the integral takes the power at the end of each interval, so when the
    times start at 0 the first power sample does not count: two power
    sequences that differ in their first sample only give the same
    energies. *)
Theorem power_at_time_zero_is_ignored (t0 p0 p0' : Q)
  (time power : list xnum) :
  (t0 == 0)%Q →
  length time = length power →
  ∃ energy energy',
    Sweep.energy_integral (Fin t0 :: time) (Fin p0 :: power) = Some energy
    ∧ Sweep.energy_integral (Fin t0 :: time) (Fin p0' :: power) = Some energy'
    ∧ Forall2 xeq energy energy'.
Proof.
  intros Ht Hlen.
  rewrite !energy_integral_same_length by (simpl; lia).
  eexists. eexists. split; [reflexivity |]. split; [reflexivity |].
  unfold scalar_op, np_append0.
  rewrite !(np_diff_cons (num := xnum)). cbn [zip_with np_cumsum].
  rewrite !fmap_cons. exact_ops.
  assert (Hfirst : xeq (xmul (Fin p0) (xsub (Fin t0) (Fin (inject_Z 0))))
                       (xmul (Fin p0') (xsub (Fin t0) (Fin (inject_Z 0))))).
  { simpl. rewrite Ht. change (inject_Z 0) with 0%Q. ring. }
  constructor; [now apply xdiv_3600_proper |].
  apply Forall2_fmap. eapply Forall2_impl.
  - apply cumsum_from_proper; [exact Hfirst | apply Forall2_xeq_refl].
  - intros x y. apply xdiv_3600_proper.
Qed.

Lemma power_at_time_zero_is_ignored_witness :
  ∃ energy energy',
    Sweep.energy_integral (Fin 0 :: [Fin 10; Fin 20])
                          (Fin 5 :: [Fin 3; Fin 2]) = Some energy
    ∧ Sweep.energy_integral (Fin 0 :: [Fin 10; Fin 20])
                            (Fin 700 :: [Fin 3; Fin 2]) = Some energy'
    ∧ Forall2 xeq energy energy'.
Proof.
  apply (power_at_time_zero_is_ignored 0 5 700 [Fin 10; Fin 20] [Fin 3; Fin 2]);
    reflexivity.
Defined.

(** *** The energy in any arithmetic *)

Section RunningSum.
Context {num : Type} `{Arith num}.

(** X17: what the energy line computes, operation for operation, whatever
    the arithmetic rounds: a running sum [s] with
    [s[0] = power[0] * (time[0] - 0)] and
    [s[k] = s[k-1] + power[k] * (time[k] - time[k-1])], and every energy
    is the running sum at its index divided by 3600. *)
Theorem energy_divides_the_running_sum (time power : list num) :
  length time = length power →
  ∃ sums,
    Sweep.energy_integral time power = Some (scalar_op div sums (of_Z 3600))
    ∧ length sums = length time
    ∧ ∀ k t p s,
        time !! k = Some t → power !! k = Some p → sums !! k = Some s →
        s = match k with
            | O => mul p (sub t (of_Z 0))
            | S j => add (default (of_Z 0) (sums !! j))
                         (mul p (sub t (default (of_Z 0) (time !! j))))
            end.
Proof.
  intros Hlen.
  pose proof (energy_integral_same_length time power Hlen) as Hint.
  set (steps := zip_with mul power (np_diff (np_append0 time))) in Hint.
  exists (np_cumsum steps). split; [exact Hint |]. split.
  - rewrite np_cumsum_length. unfold steps, np_append0.
    rewrite length_zip_with, np_diff_length. lia.
  - intros k t p s Ht Hp Hs.
    assert (Hstep : steps !! k
                    = Some (mul p (sub t (before (of_Z 0) time k)))).
    { unfold steps, np_append0. rewrite lookup_zip_with, Hp.
      cbn [mbind option_bind].
      now rewrite (np_diff_lookup _ _ _ _ Ht). }
    destruct k as [| j].
    + rewrite np_cumsum_first, Hstep in Hs. now injection Hs as <-.
    + destruct (np_cumsum_next steps j _ Hstep) as (s' & Hs' & Hnext).
      rewrite Hnext in Hs. injection Hs as <-.
      now rewrite Hs'.
Qed.

End RunningSum.

Lemma energy_divides_the_running_sum_witness :
  ∃ sums : list float,
    Sweep.energy_integral [of_Z 1; of_Z 2; of_Z 3] [of_Z 1; of_Z 1; of_Z 1]
    = Some (scalar_op div sums (of_Z 3600))
    ∧ length sums = 3%nat.
Proof.
  destruct (energy_divides_the_running_sum (num := float)
              [of_Z 1; of_Z 2; of_Z 3] [of_Z 1; of_Z 1; of_Z 1] eq_refl)
    as (sums & Hint & Hlen & _).
  exists sums. split; [exact Hint | exact Hlen].
Defined.

(** ** The plots of a sweep and the parameters of the power cell *)

Section Figures.
Context {num : Type} `{Arith num} {parameters solver_exn : Type}.
Variable solve :
  parameters → list (Sweep.instruction num) → solver_exn + Sweep.solution num.

Lemma outputs_of_getitem (C_rates : list num) (ps : list (Sweep.point num)) :
  Cells.getitem (Sweep.outputs_of C_rates ps) "C-rate"
  = inr (Sweep.Number <$> C_rates)
  ∧ Cells.getitem (Sweep.outputs_of C_rates ps) "Energy [Wh]"
    = inr ((λ p, Sweep.Array (Sweep.pt_energy p)) <$> ps)
  ∧ Cells.getitem (Sweep.outputs_of C_rates ps) "Discharge Energy [Wh]"
    = inr ((λ p, Sweep.Number (Sweep.pt_discharge_energy p)) <$> ps)
  ∧ Cells.getitem (Sweep.outputs_of C_rates ps) "Voltage [V]"
    = inr ((λ p, Sweep.Array (Sweep.pt_voltage p)) <$> ps)
  ∧ Cells.getitem (Sweep.outputs_of C_rates ps) "Mean Power [W]"
    = inr ((λ p, Sweep.Number (Sweep.pt_mean_power p)) <$> ps).
Proof.
  unfold Cells.getitem, Sweep.outputs_of.
  repeat split; now simplify_map_eq.
Qed.

Lemma collect_length (pv : parameters) (rates : list num)
  (ps : list (Sweep.point num)) :
  collect solve pv rates = inr ps → length ps = length rates.
Proof.
  revert ps. induction rates as [| r rs IH]; intros ps Hc; simpl in Hc.
  - now injection Hc as <-.
  - destruct (Sweep.point_of solve pv r) as [e | p]; [discriminate |].
    destruct (collect solve pv rs) as [e | ps']; [discriminate |].
    injection Hc as <-. simpl. now rewrite (IH ps').
Qed.

(** X11: the sweep of no rate returns a dictionary that
    [plot_power_vs_energy] cannot draw: it raises an [IndexError] at
    [outputs["Discharge Energy [Wh]"][0]]. [plot_voltage_vs_energy] draws
    it, as axes without a curve. *)
Theorem empty_sweep_in_the_plots (pv : parameters)
  (log : list (list (Sweep.instruction num))) :
  ∃ outputs,
    Sweep.sweep_c_rate solve [] pv log = (inr outputs, log)
    ∧ Cells.plot_power_vs_energy outputs = inl Cells.IndexError
    ∧ Cells.plot_voltage_vs_energy outputs
      = inr [ Cells.set_xlabel Cells.ax "Energy [Wh]";
              Cells.set_ylabel Cells.ax "Voltage [V]" None;
              Cells.grid Cells.ax (dec 5 10) ].
Proof.
  exists (Sweep.outputs_of [] []). split; [reflexivity |].
  destruct (outputs_of_getitem [] []) as (G1 & G2 & G3 & G4 & G5).
  unfold Cells.plot_power_vs_energy, Cells.plot_voltage_vs_energy.
  rewrite G1, G2, G3, G4. split; reflexivity.
Qed.

(** X12: [plot_power_vs_energy] on the result of a sweep of at least one rate
    does not raise. Both curves have the rates as abscissas and one
    ordinate per rate; the energy axis ends at 1.1 times the discharge
    energy of the first rate, the rate axis at the last rate, and the
    power axis at 1.1 times the mean power of the last rate. *)
Theorem sweep_in_plot_power_vs_energy (C_rates : list num) (pv : parameters)
  (log log' : list (list (Sweep.instruction num)))
  (outputs : gmap string (list (Sweep.item num))) :
  C_rates ≠ [] →
  Sweep.sweep_c_rate solve C_rates pv log = (inr outputs, log') →
  ∃ ps p_first p_last r_last,
    collect solve pv C_rates = inr ps
    ∧ length ps = length C_rates
    ∧ head ps = Some p_first ∧ last ps = Some p_last
    ∧ last C_rates = Some r_last
    ∧ Cells.plot_power_vs_energy outputs
      = inr [ Cells.set_xlabel Cells.ax "C-rate";
              Cells.plot Cells.ax
                (Cells.Seq (Sweep.Number <$> C_rates))
                (Cells.Seq ((λ p, Sweep.Number (Sweep.pt_discharge_energy p))
                            <$> ps))
                (Some "-o") (Some "tab:red");
              Cells.set_ylabel Cells.ax "Energy [Wh]" (Some "tab:red");
              Cells.tick_params Cells.ax "y" "tab:red";
              Cells.set_ylim Cells.ax 0
                (Sweep.Number (mul (Sweep.pt_discharge_energy p_first)
                                   (dec 11 10)));
              Cells.plot Cells.ax2
                (Cells.Seq (Sweep.Number <$> C_rates))
                (Cells.Seq ((λ p, Sweep.Number (Sweep.pt_mean_power p))
                            <$> ps))
                (Some "-o") (Some "tab:blue");
              Cells.tick_params Cells.ax2 "y" "tab:blue";
              Cells.set_ylabel Cells.ax2 "Mean Power [W]" (Some "tab:blue");
              Cells.set_xlim Cells.ax2 0 (Sweep.Number r_last);
              Cells.set_ylim Cells.ax2 0
                (Sweep.Number (mul (Sweep.pt_mean_power p_last) (dec 11 10)));
              Cells.grid Cells.ax (dec 5 10) ].
Proof.
  intros Hne. unfold Sweep.sweep_c_rate. rewrite new_outputs_of,
    (sweep_loop_traversal solve pv C_rates C_rates []). cbn [app].
  intros Hrun.
  destruct (collect solve pv C_rates) as [e | ps] eqn:Hc; [discriminate |].
  injection Hrun as <- _.
  pose proof (collect_length _ _ _ Hc) as Hlen.
  destruct ps as [| p0 ps'].
  { destruct C_rates; [contradiction | discriminate]. }
  destruct (last (p0 :: ps')) as [pl |] eqn:Hpl;
    [| apply last_None in Hpl; discriminate].
  destruct (last C_rates) as [rl |] eqn:Hrl;
    [| apply last_None in Hrl; contradiction].
  exists (p0 :: ps'), p0, pl, rl.
  repeat (split; [reflexivity || assumption |]).
  destruct (outputs_of_getitem C_rates (p0 :: ps')) as (G1 & _ & G3 & _ & G5).
  unfold Cells.plot_power_vs_energy. rewrite G1, G3, G5.
  unfold Cells.bind, Cells.last_of.
  rewrite !fmap_last, Hpl, Hrl. reflexivity.
Qed.



End Figures.

Section PowerCell.
Context {num : Type} `{Arith num}.

Lemma imul_Some (key : string) (c : num) (pv pv' : gmap string num) :
  Cells.imul key c pv = Some pv'
  ↔ ∃ x, pv !! key = Some x ∧ pv' = <[key := mul x c]> pv.
Proof.
  unfold Cells.imul. destruct (pv !! key) as [x |]; simpl.
  - split; [intros [= <-]; eauto | intros (y & [= <-] & ->); reflexivity].
  - split; [discriminate | intros (y & Hy & _); discriminate].
Qed.

(** X14: the power cell is built when the parameter set has the two electrode
    thicknesses and the electrode height, and a missing one is a
    [KeyError]. What is built has the keys of the parameter set; the two
    thicknesses are multiplied by [1/2], the height by 2, and every other
    parameter is as it was. *)
Theorem power_cell_changes_three_parameters (chen2020 : gmap string num) :
  (is_Some (Cells.power_cell chen2020)
   ↔ is_Some (chen2020 !! "Negative electrode thickness [m]")
     ∧ is_Some (chen2020 !! "Positive electrode thickness [m]")
     ∧ is_Some (chen2020 !! "Electrode height [m]"))
  ∧ ∀ pv, Cells.power_cell chen2020 = Some pv →
      dom pv = dom chen2020
      ∧ pv !! "Negative electrode thickness [m]"
        = (λ x, mul x (div (of_Z 1) (of_Z 2)))
          <$> chen2020 !! "Negative electrode thickness [m]"
      ∧ pv !! "Positive electrode thickness [m]"
        = (λ x, mul x (div (of_Z 1) (of_Z 2)))
          <$> chen2020 !! "Positive electrode thickness [m]"
      ∧ pv !! "Electrode height [m]"
        = (λ x, mul x (of_Z 2)) <$> chen2020 !! "Electrode height [m]"
      ∧ ∀ key, key ≠ "Negative electrode thickness [m]" →
               key ≠ "Positive electrode thickness [m]" →
               key ≠ "Electrode height [m]" →
               pv !! key = chen2020 !! key.
Proof.
  unfold Cells.power_cell, Cells.imul. split.
  - destruct (chen2020 !! "Negative electrode thickness [m]") as [tn |] eqn:En;
      simpl.
    + rewrite lookup_insert_ne by done.
      destruct (chen2020 !! "Positive electrode thickness [m]") as [tp |] eqn:Ep;
        simpl.
      * rewrite !lookup_insert_ne by done.
        destruct (chen2020 !! "Electrode height [m]") as [h |] eqn:Eh; simpl.
        -- split; eauto.
        -- split; [intros [? ?]; discriminate |].
           intros (_ & _ & [? ?]); discriminate.
      * split; [intros [? ?]; discriminate |].
        intros (_ & [? ?] & _); discriminate.
    + split; [intros [? ?]; discriminate |].
      intros ([? ?] & _); discriminate.
  - intros pv.
    destruct (chen2020 !! "Negative electrode thickness [m]") as [tn |] eqn:En;
      [| discriminate].
    simpl. rewrite lookup_insert_ne by done.
    destruct (chen2020 !! "Positive electrode thickness [m]") as [tp |] eqn:Ep;
      [| discriminate].
    simpl. rewrite !lookup_insert_ne by done.
    destruct (chen2020 !! "Electrode height [m]") as [h |] eqn:Eh;
      [| discriminate].
    simpl. intros [= <-]. split.
    { rewrite !dom_insert_L.
      apply (elem_of_dom_2 (D := gset string)) in En, Ep, Eh. set_solver. }
    split; [now simplify_map_eq |].
    split; [now simplify_map_eq |].
    split; [now simplify_map_eq |].
    intros key H1 H2 H3. now rewrite !lookup_insert_ne by done.
Qed.

End PowerCell.

Lemma power_cell_Some {num : Type} `{Arith num} (chen2020 : gmap string num)
  (tn tp h : num) :
  chen2020 !! "Negative electrode thickness [m]" = Some tn →
  chen2020 !! "Positive electrode thickness [m]" = Some tp →
  chen2020 !! "Electrode height [m]" = Some h →
  Cells.power_cell chen2020
  = Some (<["Electrode height [m]" := mul h (of_Z 2)]>
          (<["Positive electrode thickness [m]"
             := mul tp (div (of_Z 1) (of_Z 2))]>
           (<["Negative electrode thickness [m]"
              := mul tn (div (of_Z 1) (of_Z 2))]> chen2020))).
Proof.
  intros En Ep Eh. unfold Cells.power_cell, Cells.imul.
  rewrite En. simpl. rewrite lookup_insert_ne by done.
  rewrite Ep. simpl. rewrite !lookup_insert_ne by done.
  rewrite Eh. reflexivity.
Qed.

(** X15: in exact arithmetic the power cell keeps what the thinner and taller
    electrodes are meant to keep: the product of each thickness with the
    height, and the proportion of the two thicknesses. *)
Theorem power_cell_keeps_the_balance (chen2020 pv : gmap string xnum)
  (tn tp h : Q) :
  chen2020 !! "Negative electrode thickness [m]" = Some (Fin tn) →
  chen2020 !! "Positive electrode thickness [m]" = Some (Fin tp) →
  chen2020 !! "Electrode height [m]" = Some (Fin h) →
  Cells.power_cell chen2020 = Some pv →
  ∃ tn' tp' h' : Q,
    pv !! "Negative electrode thickness [m]" = Some (Fin tn')
    ∧ pv !! "Positive electrode thickness [m]" = Some (Fin tp')
    ∧ pv !! "Electrode height [m]" = Some (Fin h')
    ∧ (tn' * h' == tn * h)%Q
    ∧ (tp' * h' == tp * h)%Q
    ∧ (tn' * tp == tn * tp')%Q.
Proof.
  intros En Ep Eh Hpc.
  rewrite (power_cell_Some chen2020 _ _ _ En Ep Eh) in Hpc.
  injection Hpc as <-.
  exists (tn * (inject_Z 1 / inject_Z 2))%Q, (tp * (inject_Z 1 / inject_Z 2))%Q,
         (h * inject_Z 2)%Q.
  split; [now simplify_map_eq |].
  split; [now simplify_map_eq |].
  split; [now simplify_map_eq |].
  change (inject_Z 1 / inject_Z 2)%Q with (1 # 2)%Q.
  change (inject_Z 2) with 2%Q.
  repeat split; ring.
Qed.

Lemma sweep_in_plot_power_vs_energy_witness :
  ∃ outputs calls,
    Sweep.sweep_c_rate stub_solve [Fin 1; Fin 2] () []
    = (inr outputs, [] ++ (Sweep.experiment_of <$> [Fin 1; Fin 2]))
    ∧ Cells.plot_power_vs_energy outputs = inr calls.
Proof.
  destruct stub_sweep_runs as [ps Hrun].
  destruct (sweep_in_plot_power_vs_energy stub_solve [Fin 1; Fin 2] () [] _ _
              ltac:(discriminate) Hrun)
    as (ps' & p0 & pl & rl & _ & _ & _ & _ & _ & Hplot).
  eexists. eexists. split; [exact Hrun | exact Hplot].
Defined.


Lemma power_cell_keeps_the_balance_witness :
  ∃ (pv : gmap string xnum) (tn' tp' h' : Q),
    pv !! "Negative electrode thickness [m]" = Some (Fin tn')
    ∧ pv !! "Positive electrode thickness [m]" = Some (Fin tp')
    ∧ pv !! "Electrode height [m]" = Some (Fin h')
    ∧ (tn' * h' == (852 # 10000000) * (65 # 1000))%Q
    ∧ (tp' * h' == (756 # 10000000) * (65 # 1000))%Q
    ∧ (tn' * (756 # 10000000) == (852 # 10000000) * tp')%Q.
Proof.
  pose (chen := <["Negative electrode thickness [m]" := Fin (852 # 10000000)]>
                (<["Positive electrode thickness [m]" := Fin (756 # 10000000)]>
                 (<["Electrode height [m]" := Fin (65 # 1000)]>
                  (∅ : gmap string xnum)))).
  assert (En : chen !! "Negative electrode thickness [m]"
               = Some (Fin (852 # 10000000))) by now simplify_map_eq.
  assert (Ep : chen !! "Positive electrode thickness [m]"
               = Some (Fin (756 # 10000000))) by now simplify_map_eq.
  assert (Eh : chen !! "Electrode height [m]" = Some (Fin (65 # 1000)))
    by now simplify_map_eq.
  eexists.
  apply (power_cell_keeps_the_balance chen _ _ _ _ En Ep Eh).
  apply (power_cell_Some chen _ _ _ En Ep Eh).
Defined.
